(** * Telecom customer churn and revenue analysis: cleaner, segmenter,
      aggregator and revenue estimator

    Shallow embedding of the analysis pipeline of
    [src/advanced_analysis.py] (class [TelecomChurnAnalyzer], the pandas
    variant) and of the SQL text of [setup_postgresql.py] and
    [run_postgresql_analysis.py] (the PostgreSQL variant).

    Conventions of the embedding:
    - a DataFrame or a table is a list of rows, a column a list of values;
    - [float64] and SQL [numeric]/[double precision] values are exact
      rationals ([Q]); the one special float value the code depends on,
      NaN, is [None] in [float := option Q];
    - integers ([tenure], counts) are [Z] and [nat];
    - a Python exception or a failing SQL statement is [None] in the result
      of the operation that raises it. *)

From Stdlib Require Import Bool List String Ascii ZArith QArith Qround Lia Lqa.
From Stdlib Require Import Permutation Sorted.
Import ListNotations.

Local Open Scope string_scope.
Local Open Scope Q_scope.

(** ** Numbers *)

(** A float64 value: a rational, or NaN. *)
Definition float : Type := option Q.

Definition NaN : float := None.

Definition Qltb (x y : Q) : bool := negb (Qle_bool y x).

Definition pow10 (d : nat) : Q := inject_Z (10 ^ Z.of_nat d).

(** [numpy.rint]: the nearest integer, a tie going to the even neighbour. *)
Definition rint (x : Q) : Z :=
  let f := Qfloor x in
  match Qcompare (x - inject_Z f) (1 # 2) with
  | Lt => f
  | Gt => (f + 1)%Z
  | Eq => if Z.even f then f else (f + 1)%Z
  end.

(** [numpy.round(x, decimals)], which is what [Series.round] and
    [DataFrame.round] call on a float column: scale, [rint], scale back. *)
Definition np_round (x : Q) (decimals : nat) : Q :=
  inject_Z (rint (x * pow10 decimals)) / pow10 decimals.

(** The nearest integer, a tie going away from zero. *)
Definition round_half_away (x : Q) : Z :=
  if Qle_bool 0 x then Qfloor (x + (1 # 2))
  else (- Qfloor (- x + (1 # 2)))%Z.

(** PostgreSQL's [ROUND(v numeric, s int)]: ties are rounded away from
    zero. *)
Definition sql_round (x : Q) (s : nat) : Q :=
  inject_Z (round_half_away (x * pow10 s)) / pow10 s.

(** Division of two float columns in pandas ([a / b]) on a count
    denominator: a zero denominator gives NaN (or an infinity, which the
    model does not separate from NaN), never an exception. *)
Definition true_divide (a b : Q) : float :=
  if Qeq_bool b 0 then NaN else Some (a / b).

(** SQL [a / b]: a zero divisor raises [division by zero] and the statement
    fails. *)
Definition sql_div (a b : Q) : option Q :=
  if Qeq_bool b 0 then None else Some (a / b).

Definition Qsum (l : list Q) : Q := fold_right Qplus 0 l.

(** ** Data model *)

(** A cell of the [TotalCharges] column as [read_csv] leaves it: text (the
    column has dtype [object] when some field is not a number) or a float. *)
Inductive cell : Type :=
  | Text (s : string)
  | Number (x : float).

(** One customer row.  [T] is the type of the [TotalCharges] field: [cell]
    before cleaning, [Q] after it and in the SQL table. *)
Record CustomerRecord (T : Type) : Type := mkCustomer {
  customerID : string;
  SeniorCitizen : Z;
  Partner : string;
  Dependents : string;
  tenure : Z;
  Contract : string;
  InternetService : string;
  MonthlyCharges : Q;
  TotalCharges : T;
  Churn : string
}.

Arguments mkCustomer {T}.
Arguments customerID {T}.
Arguments SeniorCitizen {T}.
Arguments Partner {T}.
Arguments Dependents {T}.
Arguments tenure {T}.
Arguments Contract {T}.
Arguments InternetService {T}.
Arguments MonthlyCharges {T}.
Arguments TotalCharges {T}.
Arguments Churn {T}.

(** [df['TotalCharges'] = v] on one row. *)
Definition set_TotalCharges {T U : Type} (r : CustomerRecord T) (v : U)
  : CustomerRecord U :=
  mkCustomer (customerID r) (SeniorCitizen r) (Partner r) (Dependents r)
             (tenure r) (Contract r) (InternetService r) (MonthlyCharges r)
             v (Churn r).

(** [x == 'Yes'] on the churn flag. *)
Definition is_churned {T : Type} (r : CustomerRecord T) : bool :=
  Churn r =? "Yes".

(** ** Cleaner: [load_data] lines 29-33, [clean_data] lines 126-128 *)

(** The [errors] argument of [pandas.to_numeric]. *)
Inductive errors_policy : Type :=
  | errors_raise
  | errors_coerce.

Section Cleaner.

(** The text-to-number conversion of pandas, a parameter of the model:
    [Some q] when the text is a number, [None] when it is not. *)
Variable parse : string -> option Q.

(** [pandas.to_numeric] on one cell.  The outer [None] is the
    [ValueError] raised under [errors='raise'].  An empty text is a
    missing value under either policy. *)
Definition to_numeric_cell (errors : errors_policy) (c : cell)
  : option float :=
  match c with
  | Number x => Some x
  | Text s =>
      if s =? "" then Some NaN
      else
        match parse s with
        | Some q => Some (Some q)
        | None =>
            match errors with
            | errors_raise => None
            | errors_coerce => Some NaN
            end
        end
  end.

(** The number a cell stands for, if it stands for one: the float of a
    numeric cell unless it is NaN, the number a non-empty text parses
    to. *)
Definition numeric_value (c : cell) : option Q :=
  match c with
  | Number x => x
  | Text s => if s =? "" then None else parse s
  end.

(** The total charge of a cleaned row: the number the cell stands for,
    0 when it stands for none. *)
Definition cleaned_value (c : cell) : Q :=
  match numeric_value c with
  | Some q => q
  | None => 0
  end.

(** [pandas.to_numeric] on a column. *)
Fixpoint to_numeric (col : list cell) (errors : errors_policy)
  : option (list float) :=
  match col with
  | [] => Some []
  | c :: col' =>
      match to_numeric_cell errors c with
      | None => None
      | Some x =>
          match to_numeric col' errors with
          | None => None
          | Some xs => Some (x :: xs)
          end
      end
  end.

(** [Series.fillna(v)]: every NaN becomes [v]; the result holds no NaN. *)
Definition fillna (v : Q) (col : list float) : list Q :=
  map (fun x => match x with Some q => q | None => v end) col.

(** The two cleaning statements on the [TotalCharges] column:
    [pd.to_numeric(col, errors='coerce')] then [fillna(0, inplace=True)]. *)
Definition clean_TotalCharges (col : list cell) : option (list Q) :=
  match to_numeric col errors_coerce with
  | None => None
  | Some xs => Some (fillna 0 xs)
  end.

(** Writing a column back into the frame, row by row. *)
Fixpoint assign_TotalCharges {T U : Type} (df : list (CustomerRecord T))
         (col : list U) : list (CustomerRecord U) :=
  match df, col with
  | r :: df', v :: col' => set_TotalCharges r v :: assign_TotalCharges df' col'
  | _, _ => []
  end.

(** [TelecomChurnAnalyzer.load_data] after [read_csv], and the first two
    statements of [TelecomPostgresLoader.clean_data]. *)
Definition load_data (df : list (CustomerRecord cell))
  : option (list (CustomerRecord Q)) :=
  match clean_TotalCharges (map TotalCharges df) with
  | None => None
  | Some col => Some (assign_TotalCharges df col)
  end.

(** The frame as it stands after cleaning, seen as an input of the
    cleaner again: the column now has dtype float64. *)
Definition as_frame (df : list (CustomerRecord Q))
  : list (CustomerRecord cell) :=
  map (fun r => set_TotalCharges r (Number (Some (TotalCharges r)))) df.

End Cleaner.

(** A concrete conversion for plain decimal literals (optional sign, digits,
    optional fraction, blanks around), the form of the dataset's fields. *)
Definition digit_of (c : ascii) : option Z :=
  let n := nat_of_ascii c in
  if (48 <=? n)%nat && (n <=? 57)%nat then Some (Z.of_nat (n - 48)) else None.

Fixpoint strip_left (s : string) : string :=
  match s with
  | String " "%char s' => strip_left s'
  | _ => s
  end.

(** Digits read so far [acc], how many [n]; returns them with the rest. *)
Fixpoint read_digits (s : string) (acc : Z) (n : nat) : Z * nat * string :=
  match s with
  | String c s' =>
      match digit_of c with
      | Some d => read_digits s' (acc * 10 + d)%Z (S n)
      | None => (acc, n, s)
      end
  | EmptyString => (acc, n, s)
  end.

Definition parse_unsigned (s : string) : option Q :=
  let '(ip, ni, rest) := read_digits s 0%Z 0%nat in
  match rest with
  | String "."%char rest' =>
      let '(fp, nf, rest'') := read_digits rest' 0%Z 0%nat in
      if ((0 <? ni + nf)%nat && (strip_left rest'' =? ""))%bool
      then Some (inject_Z ip + inject_Z fp / pow10 nf)
      else None
  | _ =>
      if ((0 <? ni)%nat && (strip_left rest =? ""))%bool
      then Some (inject_Z ip)
      else None
  end.

Definition parse_decimal (s : string) : option Q :=
  match strip_left s with
  | String "-"%char s' => option_map Qopp (parse_unsigned s')
  | String "+"%char s' => parse_unsigned s'
  | s' => parse_unsigned s'
  end.

(** ** Segmenter *)

(** [create_segments(row)] of [customer_segmentation], lines 69-79: the
    [if]/[elif] chain, in its order. *)
Definition create_segments {T : Type} (row : CustomerRecord T) : string :=
  if (Contract row =? "Month-to-month") && (tenure row <? 12)%Z then
    "High Risk - New Month-to-Month"
  else if (Contract row =? "Month-to-month") && (tenure row >=? 12)%Z then
    "Medium Risk - Established Month-to-Month"
  else if (Contract row =? "One year") && (tenure row <? 6)%Z then
    "Medium Risk - New Annual"
  else if Contract row =? "Two year" then
    "Low Risk - Long-term"
  else
    "Stable - Established Annual".

(** [self.df['customer_segment'] = self.df.apply(create_segments, axis=1)]:
    the frame with its new column. *)
Definition with_segments {T : Type} (df : list (CustomerRecord T))
  : list (CustomerRecord T * string) :=
  map (fun row => (row, create_segments row)) df.

(** SQL [CASE WHEN c1 THEN v1 ... ELSE d END]: the first branch whose
    condition holds. *)
Fixpoint sql_case {A : Type} (branches : list (bool * A)) (default : A) : A :=
  match branches with
  | [] => default
  | (c, v) :: rest => if c then v else sql_case rest default
  end.

(** The three [CASE] columns of the [customer_segments] view,
    [setup_postgresql.py] lines 159-175. *)
Definition sql_customer_segment (r : CustomerRecord Q) : string :=
  sql_case
    [ ((Contract r =? "Month-to-month") && (tenure r <? 12)%Z,
       "High Risk - New Month-to-Month");
      ((Contract r =? "Month-to-month") && (tenure r >=? 12)%Z,
       "Medium Risk - Established Month-to-Month");
      ((Contract r =? "One year") && (tenure r <? 6)%Z,
       "Medium Risk - New Annual");
      (Contract r =? "Two year", "Low Risk - Long-term") ]
    "Stable - Established Annual".

Definition sql_churn_risk (r : CustomerRecord Q) : string :=
  sql_case
    [ ((Contract r =? "Month-to-month") && (tenure r <? 12)%Z, "High Risk");
      ((Contract r =? "Month-to-month") && (tenure r <? 24)%Z, "Medium Risk");
      ((Contract r =? "One year") && (tenure r <? 6)%Z, "Medium Risk") ]
    "Low Risk".

(** The [clv] column, also the [clv] of the [customer_clv] CTE of
    [analyze_clv] ([run_postgresql_analysis.py] lines 71-74). *)
Definition sql_clv (r : CustomerRecord Q) : Q :=
  sql_case [ (Qltb 0 (TotalCharges r), TotalCharges r) ]
           (MonthlyCharges r * inject_Z (tenure r)).

Record customer_segments_row : Type := mkSegmentsRow {
  cs_customer : CustomerRecord Q;
  customer_segment : string;
  churn_risk : string;
  clv : Q
}.

(** [SELECT ... FROM telecom_customers] of the view: one row per table
    row. *)
Definition customer_segments (telecom_customers : list (CustomerRecord Q))
  : list customer_segments_row :=
  map (fun r => mkSegmentsRow r (sql_customer_segment r) (sql_churn_risk r)
                              (sql_clv r))
      telecom_customers.

(** The decision table of the specification, section 4.2, row by row:
    contract type, tenure condition, segment. *)
Definition spec_segment_table : list (string * (Z -> bool) * string) :=
  [ ("Month-to-month", fun t => (t <? 12)%Z, "High Risk - New Month-to-Month");
    ("Month-to-month", fun t => (12 <=? t)%Z,
     "Medium Risk - Established Month-to-Month");
    ("One year", fun t => (t <? 6)%Z, "Medium Risk - New Annual");
    ("Two year", fun _ => true, "Low Risk - Long-term") ].

(** Evaluation in order, the first matching row wins, else the last label. *)
Fixpoint first_match (table : list (string * (Z -> bool) * string))
         (otherwise : string) (contract : string) (t : Z) : string :=
  match table with
  | [] => otherwise
  | (c, cond, label) :: rest =>
      if (contract =? c) && cond t then label
      else first_match rest otherwise contract t
  end.

Definition spec_segment (contract : string) (t : Z) : string :=
  first_match spec_segment_table "Stable - Established Annual" contract t.









(** ** Group-by *)

Section GroupBy.

Variables K R : Type.
Variable key_eqb : K -> K -> bool.
Variable key_leb : K -> K -> bool.

(** The key values that occur, each once, in order of first occurrence. *)
Fixpoint distinct (ks : list K) : list K :=
  match ks with
  | [] => []
  | k :: ks' => k :: filter (fun k' => negb (key_eqb k' k)) (distinct ks')
  end.

Fixpoint insert_key (k : K) (ks : list K) : list K :=
  match ks with
  | [] => [k]
  | h :: t => if key_leb k h then k :: ks else h :: insert_key k t
  end.

Definition sort_keys (ks : list K) : list K := fold_right insert_key [] ks.

(** The rows of one key, in frame order. *)
Definition group_of (key : R -> K) (rows : list R) (k : K) : list R :=
  filter (fun r => key_eqb (key r) k) rows.

(** SQL [GROUP BY]: one group per key value that occurs. *)
Definition group_by (key : R -> K) (rows : list R) : list (K * list R) :=
  map (fun k => (k, group_of key rows k)) (distinct (map key rows)).

(** [DataFrame.groupby(column)] on a plain (non-categorical) column: one
    group per key value that occurs, the keys sorted. *)
Definition groupby (key : R -> K) (rows : list R) : list (K * list R) :=
  map (fun k => (k, group_of key rows k))
      (sort_keys (distinct (map key rows))).

End GroupBy.

Arguments distinct {K}.
Arguments insert_key {K}.
Arguments sort_keys {K}.
Arguments group_of {K R}.
Arguments group_by {K R}.
Arguments groupby {K R}.

Definition Qnat (n : nat) : Q := inject_Z (Z.of_nat n).

(** ['count'] of a column without missing values, and
    [lambda x: (x == 'Yes').sum()] on the churn column. *)
Definition count_churned {T : Type} (rows : list (CustomerRecord T)) : nat :=
  List.length (filter is_churned rows).

(** ['mean'] of a float column: NaN for no values. *)
Definition mean (xs : list Q) : float :=
  true_divide (Qsum xs) (Qnat (List.length xs)).

(** [.round(decimals)] on a float value; NaN stays NaN. *)
Definition float_round (x : float) (decimals : nat) : float :=
  option_map (fun q => np_round q decimals) x.

Definition float_scale (x : float) (c : Q) : float :=
  option_map (fun q => q * c) x.

(** ** Aggregator, pandas variant: [customer_segmentation] lines 84-94 *)

Record segment_analysis_row : Type := mkSegmentAnalysis {
  sa_customer_segment : string;
  customer_count : nat;
  avg_monthly_charges : float;
  avg_tenure : float;
  avg_total_charges : float;
  churned_customers : nat;
  churn_rate : float
}.

(** [(Churn / customerID * 100).round(2)]. *)
Definition churn_rate_of (churned total : nat) : float :=
  float_round (float_scale (true_divide (Qnat churned) (Qnat total)) 100) 2.

(** One row of [.agg({...}).round(2)] with its [churn_rate] column; the
    rounding leaves the two integer columns as they are. *)
Definition aggregate_segment (g : string * list (CustomerRecord Q * string))
  : segment_analysis_row :=
  let rows := map fst (snd g) in
  let n := List.length rows in
  let c := count_churned rows in
  mkSegmentAnalysis
    (fst g) n
    (float_round (mean (map MonthlyCharges rows)) 2)
    (float_round (mean (map (fun r => inject_Z (tenure r)) rows)) 2)
    (float_round (mean (map TotalCharges rows)) 2)
    c
    (churn_rate_of c n).

Definition customer_segmentation (df : list (CustomerRecord Q))
  : list segment_analysis_row :=
  map aggregate_segment
      (groupby String.eqb String.leb snd (with_segments df)).

(** ** Aggregator, SQL variant: the [churn_summary] view, lines 181-200 *)

Definition age_group (r : CustomerRecord Q) : string :=
  sql_case [ ((SeniorCitizen r =? 1)%Z, "Senior") ] "Non-Senior".

Definition household_type (r : CustomerRecord Q) : string :=
  sql_case
    [ ((Partner r =? "Yes") && (Dependents r =? "Yes"), "Family");
      ((Partner r =? "Yes") || (Dependents r =? "Yes"),
       "Couple/Single Parent") ]
    "Single".

Definition summary_key : Type := string * string * string * string.

Definition churn_summary_key (r : CustomerRecord Q) : summary_key :=
  (Contract r, InternetService r, age_group r, household_type r).

Definition summary_key_eqb (a b : summary_key) : bool :=
  let '(a1, a2, a3, a4) := a in
  let '(b1, b2, b3, b4) := b in
  (a1 =? b1) && (a2 =? b2) && (a3 =? b3) && (a4 =? b4).

(** SQL [AVG]: NULL ([None]) over no rows. *)
Definition sql_avg (xs : list Q) : option Q :=
  match xs with
  | [] => None
  | _ => Some (Qsum xs / Qnat (List.length xs))
  end.

(** [SUM(CASE WHEN "Churn" = 'Yes' THEN 1 ELSE 0 END)] over a group.  A
    group of [GROUP BY] has at least one row; over no rows at all SQL's
    [SUM] is NULL, a case the grouped queries cannot meet. *)
Definition sql_sum_churn (rows : list (CustomerRecord Q)) : Z :=
  fold_right Z.add 0%Z
    (map (fun r => sql_case [ (Churn r =? "Yes", 1%Z) ] 0%Z) rows).

(** [ROUND((SUM(CASE ...) * 100.0 / COUNT( * ))::numeric, 2)]; [None] when
    the division raises. *)
Definition sql_churn_rate_percent (rows : list (CustomerRecord Q))
  : option Q :=
  option_map (fun q => sql_round q 2)
    (sql_div (inject_Z (sql_sum_churn rows) * 100) (Qnat (List.length rows))).

Record churn_summary_row : Type := mkChurnSummary {
  summary_group : summary_key;
  summary_customer_count : nat;
  summary_avg_monthly_charges : option Q;
  summary_avg_tenure_months : option Q;
  summary_churned_customers : Z;
  churn_rate_percent : Q
}.

Definition summarize (g : summary_key * list (CustomerRecord Q))
  : option churn_summary_row :=
  let rows := snd g in
  match sql_churn_rate_percent rows with
  | None => None
  | Some rate =>
      Some (mkChurnSummary
              (fst g) (List.length rows)
              (option_map (fun q => sql_round q 2)
                          (sql_avg (map MonthlyCharges rows)))
              (option_map (fun q => sql_round q 1)
                          (sql_avg (map (fun r => inject_Z (tenure r)) rows)))
              (sql_sum_churn rows)
              rate)
  end.

(** All results, or the failure of the first element that fails. *)
Fixpoint sequence {A : Type} (l : list (option A)) : option (list A) :=
  match l with
  | [] => Some []
  | None :: _ => None
  | Some a :: l' =>
      match sequence l' with
      | None => None
      | Some r => Some (a :: r)
      end
  end.

(** Reading the view: its rows, or [None] when the query raises. *)
Definition churn_summary (telecom_customers : list (CustomerRecord Q))
  : option (list churn_summary_row) :=
  sequence (map summarize
                (group_by summary_key_eqb churn_summary_key
                          telecom_customers)).

(** ** Revenue estimator, pandas variant: [revenue_impact_analysis] *)

(** [churned_customers['MonthlyCharges'] * churned_customers['tenure']],
    line 176. *)
Definition estimated_lifetime_value {T : Type} (r : CustomerRecord T) : Q :=
  MonthlyCharges r * inject_Z (tenure r).

(** The three figures of lines 170-177, as computed, before printing. *)
Record revenue_figures : Type := mkFigures {
  monthly_revenue_lost : Q;
  annual_revenue_lost : Q;
  lifetime_value_lost : Q
}.


(** [self.df[self.df['Churn'] == 'Yes']] on the segmented frame. *)
Definition churned_of {T : Type} (df : list (CustomerRecord T * string))
  : list (CustomerRecord T * string) :=
  filter (fun row => is_churned (fst row)) df.

Definition revenue_lost (df : list (CustomerRecord Q * string))
  : revenue_figures :=
  let churned_customers := map fst (churned_of df) in
  let monthly := Qsum (map MonthlyCharges churned_customers) in
  mkFigures monthly (monthly * 12)
            (Qsum (map estimated_lifetime_value churned_customers)).

Record revenue_by_segment_row : Type := mkRevenueBySegment {
  rs_customer_segment : string;
  rs_churned_customers : nat;
  rs_monthly_revenue_lost : Q;
  rs_lifetime_value_lost : Q;
  rs_annual_revenue_lost : Q
}.

(** One row of [.agg({...}).round(2)] (lines 184-188), then the column of
    line 191, computed from the stored monthly column. *)
Definition revenue_of_segment (g : string * list (CustomerRecord Q * string))
  : revenue_by_segment_row :=
  let rows := map fst (snd g) in
  let monthly := np_round (Qsum (map MonthlyCharges rows)) 2 in
  mkRevenueBySegment
    (fst g)
    (List.length rows)
    monthly
    (np_round (Qsum (map estimated_lifetime_value rows)) 2)
    (monthly * 12).

Definition revenue_by_segment (df : list (CustomerRecord Q * string))
  : list revenue_by_segment_row :=
  map revenue_of_segment (groupby String.eqb String.leb snd (churned_of df)).

(** The method on the frame that [customer_segmentation] has segmented: the
    figures it prints and the table it returns. *)
Definition revenue_impact_analysis (df : list (CustomerRecord Q))
  : revenue_figures * list revenue_by_segment_row :=
  let segmented := with_segments df in
  (revenue_lost segmented, revenue_by_segment segmented).

(** ** Revenue estimator, SQL variant: [analyze_revenue_impact] *)

(** SQL [SUM]: NULL ([None]) over no rows. *)
Definition sql_sum (xs : list Q) : option Q :=
  match xs with
  | [] => None
  | _ => Some (Qsum xs)
  end.

(** The first query, lines 147-152; each column is NULL on an empty
    table. *)
Definition sql_revenue_lost (telecom_customers : list (CustomerRecord Q))
  : option Q * option Q * option Q :=
  let churn r := Churn r =? "Yes" in
  ( sql_sum (map (fun r => sql_case [ (churn r, MonthlyCharges r) ] 0)
                 telecom_customers),
    sql_sum (map (fun r => sql_case [ (churn r, MonthlyCharges r * 12) ] 0)
                 telecom_customers),
    sql_sum (map (fun r => sql_case
                             [ (churn r,
                                MonthlyCharges r * inject_Z (tenure r)) ] 0)
                 telecom_customers) ).

Definition revenue_key : Type := string * string.

Definition revenue_key_eqb (a b : revenue_key) : bool :=
  (fst a =? fst b) && (snd a =? snd b).

(** A row of the [churn_revenue] CTE, lines 164-175. *)
Record churn_revenue_row : Type := mkChurnRevenue {
  cr_group : revenue_key;
  cr_churned_customers : nat;
  cr_avg_monthly_charges : Q;
  cr_monthly_revenue_lost : Q;
  cr_annual_revenue_lost : Q
}.

Definition churn_revenue_of (g : revenue_key * list (CustomerRecord Q))
  : churn_revenue_row :=
  let rows := snd g in
  let n := Qnat (List.length rows) in
  let avg := Qsum (map MonthlyCharges rows) / n in
  mkChurnRevenue (fst g) (List.length rows)
                 (sql_round avg 2)
                 (sql_round (n * avg) 2)
                 (sql_round (n * avg * 12) 2).

Definition churn_revenue (telecom_customers : list (CustomerRecord Q))
  : list churn_revenue_row :=
  map churn_revenue_of
      (group_by revenue_key_eqb (fun r => (Contract r, InternetService r))
                (filter is_churned telecom_customers)).

(** The outer select, lines 176-185: each CTE row with its share of the
    summed annual loss; [None] when that division raises. *)
Definition sql_revenue_by_segment
           (telecom_customers : list (CustomerRecord Q))
  : option (list (churn_revenue_row * Q)) :=
  let cte := churn_revenue telecom_customers in
  let total := Qsum (map cr_annual_revenue_lost cte) in
  sequence
    (map (fun row =>
            option_map (fun q => (row, sql_round (q * 100) 2))
                       (sql_div (cr_annual_revenue_lost row) total))
         cte).

(** ** Sample data *)

Definition customer (id contract : string) (t : Z) (monthly : Q) (total : cell)
           (churn : string) : CustomerRecord cell :=
  mkCustomer id 0%Z "No" "No" t contract "DSL" monthly total churn.

(** The three records of the specification's example, section 8, with a
    blank, a numeric and a textual total charge. *)
Definition sample_frame : list (CustomerRecord cell) :=
  [ customer "0001-A" "Month-to-month" 5 50 (Text "") "Yes";
    customer "0002-B" "Two year" 40 80 (Text "3200.5") "No";
    customer "0003-C" "One year" 3 60 (Number (Some 180)) "Yes" ].

(** The frame after cleaning. *)
Definition sample_customers : list (CustomerRecord Q) :=
  match load_data parse_decimal sample_frame with
  | Some df => df
  | None => []
  end.

(** A customer of one month whose recorded total is not monthly charge
    times tenure. *)
Definition one_month_customer : CustomerRecord Q :=
  mkCustomer "0004-D" 0%Z "No" "No" 1 "Month-to-month" "DSL" 50 100 "Yes".



(** A month-to-month customer of thirty months. *)
Definition established_customer : CustomerRecord Q :=
  mkCustomer "0300-E" 0%Z "No" "No" 30 "Month-to-month" "Fiber optic"
             70 2100 "No".

(** The five labels of [create_segments]. *)
Definition segment_labels : list string :=
  [ "High Risk - New Month-to-Month";
    "Medium Risk - Established Month-to-Month";
    "Medium Risk - New Annual";
    "Low Risk - Long-term";
    "Stable - Established Annual" ].

Definition nat_sum (l : list nat) : nat := fold_right Nat.add 0%nat l.

(** ** Cohorts: [cohort_analysis] lines 43-48 *)

(** [lambda x: max(0, 72 - x)] on the tenure. *)
Definition cohort_month {T : Type} (r : CustomerRecord T) : Z :=
  Z.max 0 (72 - tenure r).

(** [pandas.cut(x, bins, labels)] with its defaults ([right=True],
    [include_lowest=False]): bin [i] is the interval from edge [i],
    excluded, to edge [i+1], included; a value in no bin is missing
    ([None]). *)
Fixpoint cut (x : Z) (bins : list Z) (labels : list string) : option string :=
  match bins, labels with
  | lo :: ((hi :: _) as rest), label :: labels' =>
      if (lo <? x)%Z && (x <=? hi)%Z then Some label
      else cut x rest labels'
  | _, _ => None
  end.

Definition cohort_group {T : Type} (r : CustomerRecord T) : option string :=
  cut (cohort_month r) [0; 12; 24; 36; 48; 60; 72]%Z
      [ "0-12"; "13-24"; "25-36"; "37-48"; "49-60"; "60+" ].

(** ** Insights: [generate_insights_and_recommendations] lines 203-223 *)

(** [(self.df['Churn'] == 'Yes').sum() / len(self.df) * 100], line 203. *)
Definition overall_churn_rate {T : Type} (df : list (CustomerRecord T))
  : float :=
  float_scale (true_divide (Qnat (count_churned df)) (Qnat (List.length df)))
              100.

(** [lambda x: (x == 'Yes').sum() / len(x) * 100] on the churn column of a
    group, lines 211, 216, 256, 263 and 279. *)
Definition group_churn_rate {T : Type} (x : list (CustomerRecord T))
  : float :=
  float_scale (true_divide (Qnat (count_churned x)) (Qnat (List.length x)))
              100.

(** [self.df.groupby(column)['Churn'].apply(...)]: the series of the churn
    rates, indexed by the sorted values of the column. *)
Definition churn_by {T : Type} (column : CustomerRecord T -> string)
           (df : list (CustomerRecord T)) : list (string * float) :=
  map (fun g => (fst g, group_churn_rate (snd g)))
      (groupby String.eqb String.leb column df).

(** [Series.idxmax()]: the label of the first greatest value, NaN values
    skipped; [None] is the [ValueError] of a series without values. *)
Fixpoint idxmax_from (best : string * Q) (s : list (string * float))
  : string :=
  match s with
  | [] => fst best
  | (k, Some v) :: s' =>
      if Qltb (snd best) v then idxmax_from (k, v) s'
      else idxmax_from best s'
  | (_, None) :: s' => idxmax_from best s'
  end.

Fixpoint idxmax (s : list (string * float)) : option string :=
  match s with
  | [] => None
  | (k, Some v) :: s' => Some (idxmax_from (k, v) s')
  | (_, None) :: s' => idxmax s'
  end.

(** [contract_churn.idxmax()], line 212, and its twin of line 217. *)
Definition highest_churn {T : Type} (column : CustomerRecord T -> string)
           (df : list (CustomerRecord T)) : option string :=
  idxmax (churn_by column df).

(** [pd.cut(self.df['tenure'], bins=[0, 12, 24, 36, 72])], line 221; the
    labels are the intervals themselves. *)
Definition tenure_bin {T : Type} (r : CustomerRecord T) : option string :=
  cut (tenure r) [0; 12; 24; 36; 72]%Z
      [ "(0, 12]"; "(12, 24]"; "(24, 36]"; "(36, 72]" ].

(** ** Charts of the pandas variant: [create_visualizations] lines 288-289 *)


(** ** Overall churn, SQL variant: [analyze_churn_drivers] lines 105-111,
    [verify_setup] lines 225-230 *)

(** The one row of the query: [COUNT( * )], the [SUM] of the churn flags
    and the rounded percentage.  Over an empty table the [SUM] is NULL and
    so is the percentage: arithmetic on NULL gives NULL without dividing.
    The outer [None] is a query that raises. *)
Definition sql_overall_churn (telecom_customers : list (CustomerRecord Q))
  : option (nat * option Z * option Q) :=
  match telecom_customers with
  | [] => Some (0%nat, None, None)
  | _ =>
      match sql_churn_rate_percent telecom_customers with
      | None => None
      | Some rate =>
          Some (List.length telecom_customers,
                Some (sql_sum_churn telecom_customers), Some rate)
      end
  end.

(** ** Annual loss by contract: [create_visualizations] of the SQL variant,
    lines 280-287 *)



(** ** Price bands: [analyze_pricing_optimization] lines 202-217 *)

Definition price_segment (r : CustomerRecord Q) : string :=
  sql_case
    [ (Qle_bool (MonthlyCharges r) 30, "Low Price ($0-30)");
      (Qle_bool (MonthlyCharges r) 60, "Medium Price ($31-60)");
      (Qle_bool (MonthlyCharges r) 90, "High Price ($61-90)") ]
    "Premium Price ($90+)".





(** The place of a band in the price scale. *)
Definition band_rank (label : string) : nat :=
  if label =? "Low Price ($0-30)" then 0
  else if label =? "Medium Price ($31-60)" then 1
  else if label =? "High Price ($61-90)" then 2
  else 3.

(** A churned customer on a plan without a monthly charge. *)
Definition free_plan_customer : CustomerRecord Q :=
  mkCustomer "0400-F" 0%Z "No" "No" 2 "Month-to-month" "No" 0 0 "Yes".


(** ** The two scripts: [main] of [setup_postgresql.py], lines 300-358, and
    [run_complete_analysis] of [run_postgresql_analysis.py], lines 335-361 *)

(** What a run does, in order: the calls of the methods, the acquisition
    and the release of the engine and of the connection, the final report. *)
Inductive action : Type :=
  | Step (method : string)
  | Created_engine
  | Opened_connection
  | Closed_connection
  | Disposed_engine
  | Reported_success
  | Reported_failure.

(** How far [create_connection] (and [connect]) gets: [create_engine]
    raises, or [engine.connect()] raises, or both succeed. *)
Inductive connect_outcome : Type :=
  | engine_fails
  | connect_fails
  | connected.

(** Whether [self.engine] and [self.connection] are set. *)
Record connection_state : Type := mkState {
  engine : bool;
  connection : bool
}.

Definition no_connection : connection_state := mkState false false.

(** [create_connection], lines 29-49, and [connect], lines 29-39: what it
    does, the state it leaves and the boolean it returns. *)
Definition create_connection (o : connect_outcome)
  : list action * connection_state * bool :=
  match o with
  | engine_fails => ([], no_connection, false)
  | connect_fails => ([Created_engine], mkState true false, false)
  | connected =>
      ([Created_engine; Opened_connection], mkState true true, true)
  end.

(** [close_connection], lines 292-298 and 363-369. *)
Definition close_connection (s : connection_state) : list action :=
  ((if connection s then [Closed_connection] else [])
   ++ (if engine s then [Disposed_engine] else []))%list.




(** What the environment answers to the analysis run: the connection, and
    whether an analysis raises outside its guarded queries.  The charts and
    the recommendations cannot: the first catches its exceptions, the second
    only prints. *)
Record analysis_world : Type := mkAnalysisWorld {
  analysis_connecting : connect_outcome;
  clv_raises : bool;
  churn_drivers_raises : bool;
  revenue_impact_raises : bool;
  pricing_raises : bool
}.

(** The [try] block of [run_complete_analysis] with its [except]. *)
Definition analysis_steps (w : analysis_world) : list action :=
  let t1 := [Step "analyze_clv"] in
  if clv_raises w then (t1 ++ [Reported_failure])%list
  else
    let t2 := (t1 ++ [Step "analyze_churn_drivers"])%list in
    if churn_drivers_raises w then (t2 ++ [Reported_failure])%list
    else
      let t3 := (t2 ++ [Step "analyze_revenue_impact"])%list in
      if revenue_impact_raises w then (t3 ++ [Reported_failure])%list
      else
        let t4 := (t3 ++ [Step "analyze_pricing_optimization"])%list in
        if pricing_raises w then (t4 ++ [Reported_failure])%list
        else
          (t4 ++ [Step "create_visualizations";
                  Step "generate_recommendations"; Reported_success])%list.

(** [run_complete_analysis]: it returns before the [try] when [connect]
    fails, so [finally] does not run then. *)
Definition run_complete_analysis (w : analysis_world) : list action :=
  let '(connecting, s, ok) := create_connection (analysis_connecting w) in
  (Step "connect" :: connecting
   ++ (if negb ok then []
       else analysis_steps w ++ close_connection s))%list.

(** * Properties *)

(** ** Group-by: the groups partition the rows *)

Section GroupByFacts.

Variables K R : Type.
Variable key_eqb : K -> K -> bool.
Hypothesis key_eqb_eq : forall a b, key_eqb a b = true <-> a = b.

Lemma key_eqb_refl (k : K) : key_eqb k k = true.
Proof. now apply key_eqb_eq. Qed.

Lemma distinct_In (ks : list K) (k : K) :
  In k (distinct key_eqb ks) <-> In k ks.
Proof.
  induction ks as [| h t IH]; simpl; [tauto|].
  rewrite filter_In, IH.
  split.
  - intros [E | [Hin _]]; auto.
  - intros [E | Hin]; [now left|].
    destruct (key_eqb k h) eqn:E.
    + left. symmetry. now apply key_eqb_eq.
    + right. now split.
Qed.

Lemma distinct_NoDup (ks : list K) : NoDup (distinct key_eqb ks).
Proof.
  induction ks as [| h t IH]; simpl; constructor.
  - rewrite filter_In. cbv beta. rewrite key_eqb_refl. intros [_ H].
    discriminate.
  - now apply NoDup_filter.
Qed.

(** Among keys without repetition, exactly one equals a key that occurs. *)
Lemma one_key_matches (ks : list K) (k : K) (w : nat) :
  NoDup ks -> In k ks ->
  nat_sum (map (fun k' => if key_eqb k k' then w else 0%nat) ks) = w.
Proof.
  induction 1 as [| h t Hnotin Hnd IH]; simpl; [tauto|].
  intros [E | Hin].
  - subst h. rewrite key_eqb_refl.
    assert (Z : nat_sum (map (fun k' => if key_eqb k k' then w else 0%nat) t)
                = 0%nat).
    { clear IH Hnd. induction t as [| a t IHt]; simpl; [reflexivity|].
      destruct (key_eqb k a) eqn:E.
      - apply key_eqb_eq in E. subst a. exfalso. apply Hnotin. now left.
      - apply IHt. intros H. apply Hnotin. now right. }
    rewrite Z. lia.
  - destruct (key_eqb k h) eqn:E.
    + apply key_eqb_eq in E. subst h. contradiction.
    + now rewrite IH.
Qed.

(** A weighted count of the rows, summed group by group over any list of
    keys without repetition that covers the keys of the rows, is the
    weighted count of all the rows: no row is counted twice, none is
    lost. *)
Lemma groups_partition (key : R -> K) (weight : R -> nat) (ks : list K)
      (rows : list R) :
  NoDup ks ->
  (forall r, In r rows -> In (key r) ks) ->
  nat_sum (map (fun k => nat_sum (map weight (group_of key_eqb key rows k)))
               ks)
  = nat_sum (map weight rows).
Proof.
  intros Hnd. induction rows as [| r rows IH]; intros Hcover.
  - clear. induction ks as [| k ks IHk]; simpl; [reflexivity|].
    exact IHk.
  - simpl. rewrite <- IH by (intros; apply Hcover; now right).
    rewrite <- (one_key_matches ks (key r) (weight r) Hnd)
      by (apply Hcover; now left).
    clear IH Hcover Hnd.
    induction ks as [| k ks IHk]; simpl; [reflexivity|].
    rewrite IHk. unfold group_of. simpl.
    destruct (key_eqb (key r) k); simpl; lia.
Qed.

Lemma nat_sum_perm (l l' : list nat) :
  Permutation l l' -> nat_sum l = nat_sum l'.
Proof. induction 1; simpl; lia. Qed.

Lemma group_by_partition (key : R -> K) (weight : R -> nat) (rows : list R) :
  nat_sum (map (fun g => nat_sum (map weight (snd g)))
               (group_by key_eqb key rows))
  = nat_sum (map weight rows).
Proof.
  unfold group_by. rewrite map_map. simpl.
  apply groups_partition; [apply distinct_NoDup|].
  intros r Hr. apply distinct_In. now apply in_map.
Qed.

(** A group holds exactly the rows of its key, and at least one. *)
Lemma group_of_In (key : R -> K) (rows : list R) (k : K) (r : R) :
  In r (group_of key_eqb key rows k) <-> In r rows /\ key r = k.
Proof. unfold group_of. now rewrite filter_In, key_eqb_eq. Qed.

Lemma group_of_occurring (key : R -> K) (rows : list R) (k : K) :
  In k (map key rows) ->
  exists r, In r (group_of key_eqb key rows k).
Proof.
  rewrite in_map_iff. intros [r [E Hr]]. exists r.
  now apply group_of_In.
Qed.

Lemma group_by_nonempty (key : R -> K) (rows : list R) (g : K * list R) :
  In g (group_by key_eqb key rows) ->
  snd g = group_of key_eqb key rows (fst g)
  /\ exists r, In r (snd g) /\ In r rows /\ key r = fst g.
Proof.
  unfold group_by. rewrite in_map_iff. intros [k [E Hk]]. subst g. simpl.
  split; [reflexivity|].
  apply (proj1 (distinct_In _ _)) in Hk.
  destruct (group_of_occurring key rows k Hk) as [r Hr].
  exists r. split; [exact Hr|]. now apply group_of_In.
Qed.

Variable key_leb : K -> K -> bool.

Lemma insert_key_perm (k : K) (ks : list K) :
  Permutation (insert_key key_leb k ks) (k :: ks).
Proof.
  induction ks as [| h t IH]; simpl; [reflexivity|].
  destruct (key_leb k h); [reflexivity|].
  rewrite IH. apply perm_swap.
Qed.

Lemma sort_keys_perm (ks : list K) : Permutation (sort_keys key_leb ks) ks.
Proof.
  induction ks as [| h t IH]; simpl; [reflexivity|].
  rewrite insert_key_perm. now constructor.
Qed.

Lemma groupby_partition (key : R -> K) (weight : R -> nat) (rows : list R) :
  nat_sum (map (fun g => nat_sum (map weight (snd g)))
               (groupby key_eqb key_leb key rows))
  = nat_sum (map weight rows).
Proof.
  unfold groupby. rewrite map_map. simpl.
  rewrite (nat_sum_perm _
             (map (fun k => nat_sum (map weight (group_of key_eqb key rows k)))
                  (distinct key_eqb (map key rows)))).
  - apply groups_partition; [apply distinct_NoDup|].
    intros r Hr. apply distinct_In. now apply in_map.
  - apply Permutation_map, sort_keys_perm.
Qed.

Lemma groupby_nonempty (key : R -> K) (rows : list R) (g : K * list R) :
  In g (groupby key_eqb key_leb key rows) ->
  snd g = group_of key_eqb key rows (fst g)
  /\ exists r, In r (snd g) /\ In r rows /\ key r = fst g.
Proof.
  unfold groupby. rewrite in_map_iff. intros [k [E Hk]]. subst g. simpl.
  split; [reflexivity|].
  apply (Permutation_in _ (sort_keys_perm _)) in Hk.
  apply (proj1 (distinct_In _ _)) in Hk.
  destruct (group_of_occurring key rows k Hk) as [r Hr].
  exists r. split; [exact Hr|]. now apply group_of_In.
Qed.

(** Each key heads one group only. *)
Lemma groupby_keys_NoDup (key : R -> K) (rows : list R) :
  NoDup (map fst (groupby key_eqb key_leb key rows)).
Proof.
  unfold groupby. rewrite map_map. simpl. rewrite map_id.
  apply (Permutation_NoDup (Permutation_sym (sort_keys_perm _))).
  apply distinct_NoDup.
Qed.

End GroupByFacts.

(** ** Rounding *)

Lemma Qltb_lt (x y : Q) : Qltb x y = true <-> x < y.
Proof.
  unfold Qltb. rewrite negb_true_iff. split.
  - intros H. apply Qnot_le_lt. intros L.
    apply Qle_bool_iff in L. congruence.
  - intros H. destruct (Qle_bool y x) eqn:E; [|reflexivity].
    apply Qle_bool_iff in E. exfalso. now apply (Qlt_not_le x y).
Qed.

Lemma inject_Z_succ (z : Z) : inject_Z (z + 1) == inject_Z z + 1.
Proof. now rewrite inject_Z_plus. Qed.

Lemma rint_cases (x : Q) :
  rint x = Qfloor x \/ rint x = (Qfloor x + 1)%Z.
Proof.
  unfold rint.
  destruct (Qcompare (x - inject_Z (Qfloor x)) (1 # 2)); auto.
  destruct (Z.even (Qfloor x)); auto.
Qed.

(** [rint] gives a nearest integer. *)
Lemma rint_nearest (x : Q) :
  - (1 # 2) <= inject_Z (rint x) - x <= 1 # 2.
Proof.
  pose proof (Qfloor_le x) as Hlo.
  pose proof (Qlt_floor x) as Hhi.
  rewrite inject_Z_succ in Hhi.
  unfold rint.
  destruct (Qcompare (x - inject_Z (Qfloor x)) (1 # 2)) eqn:C.
  - apply Qeq_alt in C.
    destruct (Z.even (Qfloor x)); [|rewrite inject_Z_succ]; lra.
  - apply Qlt_alt in C. lra.
  - apply Qgt_alt in C. rewrite inject_Z_succ. lra.
Qed.



Lemma round_half_away_nearest (x : Q) :
  - (1 # 2) <= inject_Z (round_half_away x) - x <= 1 # 2.
Proof.
  unfold round_half_away.
  destruct (Qle_bool 0 x).
  - pose proof (Qfloor_le (x + (1 # 2))).
    pose proof (Qlt_floor (x + (1 # 2))) as Hhi.
    rewrite inject_Z_succ in Hhi. lra.
  - pose proof (Qfloor_le (- x + (1 # 2))).
    pose proof (Qlt_floor (- x + (1 # 2))) as Hhi.
    rewrite inject_Z_succ in Hhi. rewrite inject_Z_opp. lra.
Qed.


Lemma round_half_away_bounds (x : Q) (a b : Z) :
  (0 <= a)%Z -> inject_Z a <= x <= inject_Z b ->
  (a <= round_half_away x <= b)%Z.
Proof.
  intros A [Ha Hb]. unfold round_half_away.
  assert (P : Qle_bool 0 x = true).
  { apply Qle_bool_iff.
    assert (inject_Z 0 <= inject_Z a) by now rewrite <- Zle_Qle.
    change (inject_Z 0) with 0 in *. lra. }
  rewrite P. split.
  - assert (L : inject_Z a <= x + (1 # 2)) by lra.
    apply Qfloor_resp_le in L. now rewrite Qfloor_Z in L.
  - assert (L : x + (1 # 2) <= inject_Z b + (1 # 2)) by lra.
    apply Qfloor_resp_le in L.
    assert (F : Qfloor (inject_Z b + (1 # 2)) = b).
    { pose proof (Qfloor_le (inject_Z b + (1 # 2))) as F1.
      pose proof (Qlt_floor (inject_Z b + (1 # 2))) as F2.
      rewrite inject_Z_succ in F2.
      assert (G1 : inject_Z b < inject_Z (Qfloor (inject_Z b + (1 # 2)) + 1)).
      { rewrite inject_Z_succ. lra. }
      assert (G2 : inject_Z (Qfloor (inject_Z b + (1 # 2))) < inject_Z (b + 1)).
      { rewrite inject_Z_succ. lra. }
      rewrite <- Zlt_Qlt in G1, G2. lia. }
    now rewrite F in L.
Qed.

Lemma pow10_pos (d : nat) : 0 < pow10 d.
Proof.
  unfold pow10. change 0 with (inject_Z 0). rewrite <- Zlt_Qlt.
  apply Z.pow_pos_nonneg; lia.
Qed.

Lemma scaled_bounds (x : Q) (d : nat) (a b : Z) :
  inject_Z a <= x <= inject_Z b ->
  inject_Z (a * 10 ^ Z.of_nat d) <= x * pow10 d
  <= inject_Z (b * 10 ^ Z.of_nat d).
Proof.
  intros [Ha Hb]. pose proof (pow10_pos d) as P.
  rewrite !inject_Z_mult. fold (pow10 d).
  split; apply Qmult_le_compat_r; auto using Qlt_le_weak.
Qed.

Lemma unscaled_bounds (n : Z) (d : nat) (a b : Z) :
  (a * 10 ^ Z.of_nat d <= n <= b * 10 ^ Z.of_nat d)%Z ->
  inject_Z a <= inject_Z n / pow10 d <= inject_Z b.
Proof.
  intros [Ha Hb]. pose proof (pow10_pos d) as P.
  rewrite Zle_Qle in Ha, Hb. rewrite inject_Z_mult in Ha, Hb.
  fold (pow10 d) in Ha, Hb.
  split.
  - now apply Qle_shift_div_l.
  - now apply Qle_shift_div_r.
Qed.


Lemma sql_round_bounds (x : Q) (d : nat) (a b : Z) :
  (0 <= a)%Z -> inject_Z a <= x <= inject_Z b ->
  inject_Z a <= sql_round x d <= inject_Z b.
Proof.
  intros A H. unfold sql_round.
  apply unscaled_bounds, round_half_away_bounds.
  - apply Z.mul_nonneg_nonneg; [exact A|]. apply Z.pow_nonneg. lia.
  - now apply scaled_bounds.
Qed.

(** [np_round x d] is a multiple of [10^-d] nearest to [x]. *)
Lemma np_round_nearest (x : Q) (d : nat) :
  - (1 # 2) <= (np_round x d - x) * pow10 d <= 1 # 2.
Proof.
  pose proof (pow10_pos d) as P.
  pose proof (rint_nearest (x * pow10 d)) as H.
  assert (E : (np_round x d - x) * pow10 d
              == inject_Z (rint (x * pow10 d)) - x * pow10 d).
  { unfold np_round. field. intros Z. rewrite Z in P.
    now apply (Qlt_irrefl 0). }
  now rewrite E.
Qed.

Lemma sql_round_nearest (x : Q) (d : nat) :
  - (1 # 2) <= (sql_round x d - x) * pow10 d <= 1 # 2.
Proof.
  pose proof (pow10_pos d) as P.
  pose proof (round_half_away_nearest (x * pow10 d)) as H.
  assert (E : (sql_round x d - x) * pow10 d
              == inject_Z (round_half_away (x * pow10 d)) - x * pow10 d).
  { unfold sql_round. field. intros Z. rewrite Z in P.
    now apply (Qlt_irrefl 0). }
  now rewrite E.
Qed.

(** ** Aggregator *)

Lemma count_as_sum {A : Type} (p : A -> bool) (l : list A) :
  List.length (filter p l)
  = nat_sum (map (fun a => if p a then 1%nat else 0%nat) l).
Proof.
  induction l as [| a l IH]; simpl; [reflexivity|].
  destruct (p a); simpl; lia.
Qed.

Lemma nat_sum_ones {A : Type} (l : list A) :
  nat_sum (map (fun _ => 1%nat) l) = List.length l.
Proof. induction l; simpl; auto. Qed.

Lemma count_churned_le {T : Type} (rows : list (CustomerRecord T)) :
  (count_churned rows <= List.length rows)%nat.
Proof. apply filter_length_le. Qed.

Lemma sql_sum_churn_count (rows : list (CustomerRecord Q)) :
  sql_sum_churn rows = Z.of_nat (count_churned rows).
Proof.
  induction rows as [| r rows IH]; [reflexivity|].
  change (sql_sum_churn (r :: rows))
    with (Z.add (if String.eqb (Churn r) "Yes" then 1%Z else 0%Z)
                (sql_sum_churn rows)).
  rewrite IH. unfold count_churned, is_churned. simpl.
  destruct (Churn r =? "Yes"); simpl List.length; lia.
Qed.

Lemma Qnat_pos (n : nat) : (0 < n)%nat -> 0 < Qnat n.
Proof.
  intros H. unfold Qnat. change 0 with (inject_Z 0).
  rewrite <- Zlt_Qlt. lia.
Qed.

Lemma Qnat_nonzero (n : nat) : (0 < n)%nat -> Qeq_bool (Qnat n) 0 = false.
Proof.
  intros H. destruct (Qeq_bool (Qnat n) 0) eqn:E; [|reflexivity].
  apply Qeq_bool_eq in E. pose proof (Qnat_pos n H) as P.
  rewrite E in P. now apply Qlt_irrefl in P.
Qed.

(** A part of a whole, as a percentage, lies between 0 and 100. *)
Lemma percentage_bounds (c n : nat) :
  (c <= n)%nat -> (0 < n)%nat ->
  inject_Z 0 <= Qnat c / Qnat n * 100 <= inject_Z 100.
Proof.
  intros Hc Hn. pose proof (Qnat_pos n Hn) as P.
  assert (C0 : 0 <= Qnat c).
  { unfold Qnat. change 0 with (inject_Z 0). rewrite <- Zle_Qle. lia. }
  assert (C1 : Qnat c <= Qnat n).
  { unfold Qnat. rewrite <- Zle_Qle. lia. }
  assert (L : 0 <= Qnat c / Qnat n).
  { apply Qle_shift_div_l; [exact P|]. lra. }
  assert (U : Qnat c / Qnat n <= 1).
  { apply Qle_shift_div_r; [exact P|]. lra. }
  change (inject_Z 0) with 0. change (inject_Z 100) with 100. lra.
Qed.

Lemma churn_rate_of_defined (c n : nat) :
  (0 < n)%nat ->
  churn_rate_of c n = Some (np_round (Qnat c / Qnat n * 100) 2).
Proof.
  intros Hn. unfold churn_rate_of, true_divide.
  now rewrite (Qnat_nonzero n Hn).
Qed.

Lemma sql_churn_rate_percent_defined (rows : list (CustomerRecord Q)) :
  (0 < List.length rows)%nat ->
  sql_churn_rate_percent rows
  = Some (sql_round (inject_Z (sql_sum_churn rows) * 100
                     / Qnat (List.length rows)) 2).
Proof.
  intros Hn. unfold sql_churn_rate_percent, sql_div.
  now rewrite (Qnat_nonzero _ Hn).
Qed.

Lemma nonempty_length {A : Type} (l : list A) (a : A) :
  In a l -> (0 < List.length l)%nat.
Proof. destruct l; simpl; [tauto | lia]. Qed.

(** The rows of [customer_segmentation] are the aggregates of the groups of
    the segmented frame, each group non-empty and made of the rows of its
    segment. *)
Lemma customer_segmentation_row (df : list (CustomerRecord Q))
      (row : segment_analysis_row) :
  In row (customer_segmentation df) ->
  exists g,
    row = aggregate_segment g
    /\ In g (groupby String.eqb String.leb snd (with_segments df))
    /\ exists r, In (r, fst g) (snd g) /\ In r df
                 /\ create_segments r = fst g.
Proof.
  unfold customer_segmentation. rewrite in_map_iff.
  intros [g [E Hg]]. exists g. split; [now symmetry|]. split; [exact Hg|].
  destruct (groupby_nonempty _ _ String.eqb String.eqb_eq String.leb
                             snd (with_segments df) g Hg)
    as [_ [[r s] [Hin [Hr Hk]]]].
  simpl in Hk. subst s. exists r. split; [exact Hin|].
  unfold with_segments in Hr. apply in_map_iff in Hr.
  destruct Hr as [r' [E' Hr']]. inversion E'; subst r'. auto.
Qed.

Lemma sequence_map_Some {A B : Type} (f : A -> option B) (l : list A) :
  (forall a, In a l -> exists b, f a = Some b) ->
  exists bs, sequence (map f l) = Some bs
             /\ forall b, In b bs -> exists a, In a l /\ f a = Some b.
Proof.
  induction l as [| a l IH]; intros H; simpl.
  - exists []. split; [reflexivity|]. simpl. tauto.
  - destruct (H a (or_introl eq_refl)) as [b Hb]. rewrite Hb.
    destruct IH as [bs [E Hbs]]; [intros; apply H; now right|].
    rewrite E. exists (b :: bs). split; [reflexivity|].
    intros b' [<- | Hin].
    + exists a. auto.
    + destruct (Hbs b' Hin) as [a' [Ha' Ea']]. exists a'. auto.
Qed.

Lemma sequence_Some_In {A B : Type} (f : A -> option B) (l : list A)
      (bs : list B) (b : B) :
  sequence (map f l) = Some bs -> In b bs ->
  exists a, In a l /\ f a = Some b.
Proof.
  revert bs. induction l as [| a l IH]; simpl; intros bs E Hin.
  - inversion E; subst bs. destruct Hin.
  - destruct (f a) as [b0|] eqn:Fa; [|discriminate].
    destruct (sequence (map f l)) as [bs'|] eqn:S; [|discriminate].
    inversion E; subst bs. destruct Hin as [<- | Hin].
    + exists a. auto.
    + destruct (IH bs' eq_refl Hin) as [a' [Ha' Ea']]. exists a'. auto.
Qed.

Lemma summary_key_eqb_eq (a b : summary_key) :
  summary_key_eqb a b = true <-> a = b.
Proof.
  destruct a as [[[a1 a2] a3] a4], b as [[[b1 b2] b3] b4]. simpl.
  rewrite !andb_true_iff, !String.eqb_eq. split.
  - intros [[[-> ->] ->] ->]. reflexivity.
  - intros E. inversion E. auto.
Qed.

Lemma summarize_defined (g : summary_key * list (CustomerRecord Q)) :
  (0 < List.length (snd g))%nat ->
  exists row, summarize g = Some row
    /\ summary_group row = fst g
    /\ summary_customer_count row = List.length (snd g)
    /\ summary_churned_customers row = sql_sum_churn (snd g)
    /\ churn_rate_percent row
       = sql_round (inject_Z (sql_sum_churn (snd g)) * 100
                    / Qnat (List.length (snd g))) 2.
Proof.
  intros Hn. unfold summarize.
  rewrite (sql_churn_rate_percent_defined _ Hn).
  eexists. split; [reflexivity|]. simpl. auto.
Qed.

(** The rows of the [churn_summary] view, when the query succeeds. *)
Lemma churn_summary_row_of (t : list (CustomerRecord Q))
      (rows : list churn_summary_row) (row : churn_summary_row) :
  churn_summary t = Some rows -> In row rows ->
  exists g,
    In g (group_by summary_key_eqb churn_summary_key t)
    /\ summarize g = Some row
    /\ exists r, In r (snd g) /\ In r t /\ churn_summary_key r = fst g.
Proof.
  unfold churn_summary. intros E Hin.
  destruct (sequence_Some_In _ _ _ _ E Hin) as [g [Hg Sg]].
  exists g. split; [exact Hg|]. split; [exact Sg|].
  now destruct (group_by_nonempty _ _ summary_key_eqb summary_key_eqb_eq
                                  churn_summary_key t g Hg) as [_ H].
Qed.

Lemma churn_summary_defined (t : list (CustomerRecord Q)) :
  exists rows, churn_summary t = Some rows.
Proof.
  unfold churn_summary.
  destruct (sequence_map_Some summarize
              (group_by summary_key_eqb churn_summary_key t))
    as [rows [E _]]; [|now exists rows].
  intros g Hg.
  destruct (group_by_nonempty _ _ summary_key_eqb summary_key_eqb_eq
                              churn_summary_key t g Hg) as [_ [r [Hr _]]].
  destruct (summarize_defined g (nonempty_length _ _ Hr)) as [row [E _]].
  now exists row.
Qed.

Lemma sql_percentage_bounds (c n : nat) :
  (c <= n)%nat -> (0 < n)%nat ->
  inject_Z 0 <= inject_Z (Z.of_nat c) * 100 / Qnat n <= inject_Z 100.
Proof.
  intros Hc Hn. pose proof (Qnat_pos n Hn) as P.
  assert (C0 : 0 <= Qnat c).
  { unfold Qnat. change 0 with (inject_Z 0). rewrite <- Zle_Qle. lia. }
  assert (C1 : Qnat c <= Qnat n).
  { unfold Qnat. rewrite <- Zle_Qle. lia. }
  fold (Qnat c). change (inject_Z 0) with 0. change (inject_Z 100) with 100.
  split.
  - apply Qle_shift_div_l; [exact P|]. lra.
  - apply Qle_shift_div_r; [exact P|]. lra.
Qed.

Lemma count_churned_as_sum {T : Type}
      (rows : list (CustomerRecord T * string)) :
  count_churned (map fst rows)
  = nat_sum (map (fun row => if is_churned (fst row) then 1%nat else 0%nat)
                 rows).
Proof. unfold count_churned. now rewrite count_as_sum, map_map. Qed.

Lemma with_segments_fst {T : Type} (df : list (CustomerRecord T)) :
  map fst (with_segments df) = df.
Proof. unfold with_segments. rewrite map_map. simpl. apply map_id. Qed.

(** C7. Over any frame, the churned counts of the segment rows add up to
    the number of churned customers of the frame, and the customer counts to
    the number of customers: every record is counted in one segment row,
    once; no segment has two rows. *)
Theorem segment_churned_counts_sum (df : list (CustomerRecord Q)) :
  nat_sum (map churned_customers (customer_segmentation df))
  = count_churned df
  /\ nat_sum (map customer_count (customer_segmentation df)) = List.length df
  /\ NoDup (map sa_customer_segment (customer_segmentation df)).
Proof.
  unfold customer_segmentation. rewrite !map_map. simpl.
  split; [|split].
  - rewrite (map_ext _ _ (fun g => count_churned_as_sum (snd g))).
    rewrite (groupby_partition _ _ String.eqb String.eqb_eq).
    now rewrite <- count_churned_as_sum, with_segments_fst.
  - rewrite (map_ext _
               (fun g => nat_sum (map (fun _ => 1%nat) (snd g))))
      by (intros g; now rewrite nat_sum_ones, length_map).
    rewrite (groupby_partition _ _ String.eqb String.eqb_eq).
    unfold with_segments. now rewrite nat_sum_ones, length_map.
  - apply (groupby_keys_NoDup _ _ String.eqb String.eqb_eq).
Qed.

(** C6. In both aggregators every row comes from a group that holds at
    least one record of the frame, carrying the row's key: a key without
    records has no row.  So the ratio is never taken over an empty group:
    in pandas no churn rate is NaN, and the [churn_summary] query returns
    its rows instead of raising [division by zero].  The same holds for a
    grouping by any text-valued key, in pandas and in SQL. *)
Theorem groups_are_nonempty (df : list (CustomerRecord Q)) :
  (forall row, In row (customer_segmentation df) ->
     (0 < customer_count row)%nat
     /\ churn_rate row <> NaN
     /\ exists r, In r df /\ create_segments r = sa_customer_segment row)
  /\ (exists rows, churn_summary df = Some rows
      /\ forall row, In row rows ->
           (0 < summary_customer_count row)%nat
           /\ exists r, In r df /\ churn_summary_key r = summary_group row)
  /\ (forall (key : CustomerRecord Q -> string) g,
        In g (groupby String.eqb String.leb key df)
        \/ In g (group_by String.eqb key df) ->
        (exists r, In r df /\ In r (snd g) /\ key r = fst g)
        /\ churn_rate_of (count_churned (snd g)) (List.length (snd g)) <> NaN
        /\ sql_churn_rate_percent (snd g) <> None).
Proof.
  split; [|split].
  - intros row Hrow.
    destruct (customer_segmentation_row df row Hrow)
      as [g [-> [Hg [r [Hin [Hr Hk]]]]]].
    assert (Hn : (0 < List.length (map fst (snd g)))%nat).
    { rewrite length_map. exact (nonempty_length _ _ Hin). }
    simpl. split; [exact Hn|]. split.
    + rewrite (churn_rate_of_defined _ _ Hn). discriminate.
    + exists r. auto.
  - destruct (churn_summary_defined df) as [rows E].
    exists rows. split; [exact E|]. intros row Hrow.
    destruct (churn_summary_row_of df rows row E Hrow)
      as [g [Hg [Sg [r [Hin [Hr Hk]]]]]].
    destruct (summarize_defined g (nonempty_length _ _ Hin))
      as [row' [Sg' [Gk [Gn _]]]].
    rewrite Sg in Sg'. inversion Sg'; subst row'.
    rewrite Gk, Gn. split; [exact (nonempty_length _ _ Hin)|].
    exists r. auto.
  - intros key g Hg.
    assert (H : exists r, In r (snd g) /\ In r df /\ key r = fst g).
    { destruct Hg as [Hg | Hg].
      - now destruct (groupby_nonempty _ _ String.eqb String.eqb_eq
                                       String.leb key df g Hg).
      - now destruct (group_by_nonempty _ _ String.eqb String.eqb_eq
                                        key df g Hg). }
    destruct H as [r [Hin [Hr Hk]]].
    pose proof (nonempty_length _ _ Hin) as Hn.
    split; [exists r; auto|]. split.
    + rewrite (churn_rate_of_defined _ _ Hn). discriminate.
    + rewrite (sql_churn_rate_percent_defined _ Hn). discriminate.
Qed.

(** The first segment row of the sample frame has customers and a defined
    churn rate. *)
Lemma groups_are_nonempty_witness :
  exists row,
    In row (customer_segmentation sample_customers)
    /\ (0 < customer_count row)%nat
    /\ churn_rate row <> NaN.
Proof.
  eexists. split; [left; reflexivity|].
  refine (let H := proj1 (groups_are_nonempty sample_customers) _ _ in
          conj (proj1 H) (proj1 (proj2 H))).
  left. reflexivity.
Defined.




(** ** Segmenter *)

(** Integer comparisons as propositions. *)
Ltac zbool :=
  repeat match goal with
    | H : (_ <? _)%Z = true |- _ => apply Z.ltb_lt in H
    | H : (_ <? _)%Z = false |- _ => apply Z.ltb_ge in H
    | H : (_ >=? _)%Z = true |- _ => apply Z.geb_le in H
    | H : (_ >=? _)%Z = false |- _ =>
        rewrite Z.geb_leb in H; apply Z.leb_gt in H
    | H : (_ <=? _)%Z = true |- _ => apply Z.leb_le in H
    | H : (_ <=? _)%Z = false |- _ => apply Z.leb_gt in H
    end.

(** Case analysis on the contract type of a row, then on every tenure test
    in sight. *)
Ltac by_contract c :=
  destruct (String.eqb_spec c "Month-to-month") as [-> | ?];
  [| destruct (String.eqb_spec c "One year") as [-> | ?];
     [| destruct (String.eqb_spec c "Two year") as [-> | ?] ] ];
  simpl.

Ltac by_tenure :=
  repeat match goal with
    | |- context [(?a <? ?b)%Z] => destruct (a <? b)%Z eqn:?
    | |- context [(?a >=? ?b)%Z] => destruct (a >=? b)%Z eqn:?
    | |- context [(?a <=? ?b)%Z] => destruct (a <=? b)%Z eqn:?
    end;
  simpl; zbool.

Lemma segment_labels_NoDup : NoDup segment_labels.
Proof.
  unfold segment_labels.
  repeat constructor; simpl; intuition discriminate.
Qed.

Lemma customer_segments_row_of (t : list (CustomerRecord Q))
      (row : customer_segments_row) :
  In row (customer_segments t) ->
  In (cs_customer row) t
  /\ customer_segment row = sql_customer_segment (cs_customer row)
  /\ churn_risk row = sql_churn_risk (cs_customer row)
  /\ clv row = sql_clv (cs_customer row).
Proof.
  unfold customer_segments. rewrite in_map_iff.
  intros [r [<- Hr]]. simpl. auto.
Qed.

(** The SQL [CASE] of the view and the Python chain give the same label. *)
Lemma sql_customer_segment_create_segments (r : CustomerRecord Q) :
  sql_customer_segment r = create_segments r.
Proof. reflexivity. Qed.

(** C2. The segmenter gives every record one label, the one the decision
    table of the specification gives when read in order, first match
    winning; the SQL view gives the same label.  As a decision tree: month
    to month, High Risk under 12 months of tenure (0 included) and Medium
    Risk - Established from 12 months; one year, Medium Risk - New Annual
    under 6 months and Stable from 6; two year, Low Risk at any tenure;
    any other contract, Stable. *)
Theorem create_segments_decision_table (r : CustomerRecord Q) :
  create_segments r = spec_segment (Contract r) (tenure r)
  /\ sql_customer_segment r = create_segments r
  /\ In (create_segments r) segment_labels
  /\ NoDup segment_labels
  /\ create_segments r
     = (if Contract r =? "Month-to-month" then
          if (tenure r <? 12)%Z then "High Risk - New Month-to-Month"
          else "Medium Risk - Established Month-to-Month"
        else if Contract r =? "One year" then
          if (tenure r <? 6)%Z then "Medium Risk - New Annual"
          else "Stable - Established Annual"
        else if Contract r =? "Two year" then "Low Risk - Long-term"
        else "Stable - Established Annual").
Proof.
  split; [|split; [reflexivity|split; [|split; [apply segment_labels_NoDup|]]]];
    unfold create_segments, spec_segment, segment_labels;
    destruct r as [id sc pa de t c isv mc tc ch]; simpl;
    by_contract c.
  all: try (by_tenure; try reflexivity; try lia; simpl; tauto).
  all: repeat match goal with
         | H : ?c <> ?s |- context [?c =? ?s] =>
             rewrite (proj2 (String.eqb_neq c s) H)
         end; simpl; try reflexivity; tauto.
Qed.








(** ** Cleaner *)

Section CleanerFacts.

Variable parse : string -> option Q.

Lemma to_numeric_cell_coerce (c : cell) :
  to_numeric_cell parse errors_coerce c = Some (numeric_value parse c).
Proof.
  destruct c as [s | x]; simpl; [|reflexivity].
  destruct (s =? ""); [reflexivity|].
  now destruct (parse s).
Qed.

(** Under [errors='coerce'] the conversion of a column never raises. *)
Lemma to_numeric_coerce (col : list cell) :
  to_numeric parse col errors_coerce
  = Some (map (numeric_value parse) col).
Proof.
  induction col as [| c col IH]; simpl; [reflexivity|].
  now rewrite to_numeric_cell_coerce, IH.
Qed.

Lemma clean_TotalCharges_map (col : list cell) :
  clean_TotalCharges parse col = Some (map (cleaned_value parse) col).
Proof.
  unfold clean_TotalCharges, fillna.
  now rewrite to_numeric_coerce, map_map.
Qed.

Lemma assign_TotalCharges_map {T U : Type} (f : T -> U)
      (df : list (CustomerRecord T)) :
  assign_TotalCharges df (map f (map TotalCharges df))
  = map (fun r => set_TotalCharges r (f (TotalCharges r))) df.
Proof.
  induction df as [| r df IH]; simpl; [reflexivity|]. now rewrite IH.
Qed.

Lemma load_data_map (df : list (CustomerRecord cell)) :
  load_data parse df
  = Some (map (fun r => set_TotalCharges r
                          (cleaned_value parse (TotalCharges r)))
              df).
Proof.
  unfold load_data.
  now rewrite clean_TotalCharges_map, assign_TotalCharges_map.
Qed.



(** C9. Cleaning the frame that a first cleaning returned gives that
    frame again: the second pass changes no value. *)
Theorem cleaner_idempotent (df : list (CustomerRecord cell))
        (out : list (CustomerRecord Q)) :
  load_data parse df = Some out ->
  load_data parse (as_frame out) = Some out.
Proof.
  intros _. rewrite load_data_map. unfold as_frame. rewrite map_map.
  f_equal. rewrite <- (map_id out) at 2. apply map_ext.
  now intros [id sc pa de t c isv mc tc ch].
Qed.

End CleanerFacts.


Lemma cleaner_idempotent_witness :
  load_data parse_decimal sample_frame = Some sample_customers
  /\ load_data parse_decimal (as_frame sample_customers)
     = Some sample_customers.
Proof.
  split; [reflexivity|].
  apply (cleaner_idempotent parse_decimal sample_frame). reflexivity.
Defined.

(** The example of the specification, section 8: the segments of the
    three records, 110 lost a month and 1320 a year. *)
Example specification_example :
  map create_segments sample_customers
  = [ "High Risk - New Month-to-Month"; "Low Risk - Long-term";
      "Medium Risk - New Annual" ]
  /\ monthly_revenue_lost (fst (revenue_impact_analysis sample_customers))
     == 110
  /\ annual_revenue_lost (fst (revenue_impact_analysis sample_customers))
     == 1320.
Proof. repeat split. Qed.

(** Under [errors='raise'] the same conversion does raise on a field that is
    not a number: the failure the cleaner keeps from its caller. *)
Example to_numeric_raise_fails :
  to_numeric parse_decimal [Text "29.85"; Text " "] errors_raise = None
  /\ to_numeric parse_decimal [Text "29.85"; Text " "] errors_coerce
     = Some [Some (2985 # 100); NaN].
Proof. split; reflexivity. Qed.

(** ** Revenue estimator *)

Lemma churned_of_with_segments (df : list (CustomerRecord Q)) :
  map fst (churned_of (with_segments df)) = filter is_churned df.
Proof.
  unfold churned_of, with_segments.
  induction df as [| r df IH]; simpl; [reflexivity|].
  destruct (is_churned r); simpl; now rewrite IH.
Qed.

(** The churned rows of one segment. *)
Lemma churned_group_members (df : list (CustomerRecord Q)) (k : string) :
  map fst (group_of String.eqb snd (churned_of (with_segments df)) k)
  = filter (fun r => create_segments r =? k) (filter is_churned df).
Proof.
  unfold group_of, churned_of, with_segments.
  induction df as [| r df IH]; simpl; [reflexivity|].
  destruct (is_churned r); simpl; [|exact IH].
  destruct (create_segments r =? k); simpl; now rewrite IH.
Qed.

Lemma revenue_by_segment_row_of (df : list (CustomerRecord Q))
      (row : revenue_by_segment_row) :
  In row (revenue_by_segment (with_segments df)) ->
  exists members,
    members = filter (fun r => create_segments r =? rs_customer_segment row)
                     (filter is_churned df)
    /\ members <> []
    /\ rs_churned_customers row = List.length members
    /\ rs_monthly_revenue_lost row
       = np_round (Qsum (map MonthlyCharges members)) 2
    /\ rs_lifetime_value_lost row
       = np_round (Qsum (map estimated_lifetime_value members)) 2
    /\ rs_annual_revenue_lost row = rs_monthly_revenue_lost row * 12.
Proof.
  unfold revenue_by_segment. rewrite in_map_iff.
  intros [g [<- Hg]].
  destruct (groupby_nonempty _ _ String.eqb String.eqb_eq String.leb
                             snd _ g Hg) as [Eg [row [Hin _]]].
  unfold revenue_of_segment. simpl. rewrite Eg, churned_group_members.
  eexists. split; [reflexivity|]. split; [|repeat split].
  rewrite <- churned_group_members, <- Eg.
  destruct (snd g); [destruct Hin | discriminate].
Qed.

Lemma round_half_away_compat (x y : Q) :
  x == y -> round_half_away x = round_half_away y.
Proof.
  intros H. unfold round_half_away.
  assert (E1 : Qle_bool 0 x = Qle_bool 0 y) by now rewrite H.
  assert (E2 : Qfloor (x + (1 # 2)) = Qfloor (y + (1 # 2))) by now rewrite H.
  assert (E3 : Qfloor (- x + (1 # 2)) = Qfloor (- y + (1 # 2)))
    by now rewrite H.
  now rewrite E1, E2, E3.
Qed.

Lemma sql_round_compat (x y : Q) (d : nat) :
  x == y -> sql_round x d = sql_round y d.
Proof.
  intros H. unfold sql_round.
  rewrite (round_half_away_compat (x * pow10 d) (y * pow10 d)); [reflexivity|].
  now rewrite H.
Qed.

Lemma revenue_key_eqb_eq (a b : revenue_key) :
  revenue_key_eqb a b = true <-> a = b.
Proof.
  destruct a as [a1 a2], b as [b1 b2]. unfold revenue_key_eqb. simpl.
  rewrite andb_true_iff, !String.eqb_eq. split.
  - now intros [-> ->].
  - intros E. inversion E. auto.
Qed.

Lemma churn_revenue_row_of (t : list (CustomerRecord Q))
      (row : churn_revenue_row) :
  In row (churn_revenue t) ->
  exists members,
    members = filter (fun r => revenue_key_eqb (Contract r, InternetService r)
                                               (cr_group row))
                     (filter is_churned t)
    /\ members <> []
    /\ cr_churned_customers row = List.length members
    /\ cr_monthly_revenue_lost row
       = sql_round (Qsum (map MonthlyCharges members)) 2
    /\ cr_annual_revenue_lost row
       = sql_round (Qsum (map MonthlyCharges members) * 12) 2.
Proof.
  unfold churn_revenue. rewrite in_map_iff.
  intros [g [<- Hg]].
  destruct (group_by_nonempty _ _ revenue_key_eqb revenue_key_eqb_eq
                              _ _ g Hg) as [Eg [r [Hin _]]].
  unfold churn_revenue_of. simpl.
  assert (P : ~ Qnat (List.length (snd g)) == 0).
  { intros Z. pose proof (Qnat_pos _ (nonempty_length _ _ Hin)) as P.
    rewrite Z in P. now apply Qlt_irrefl in P. }
  exists (snd g). split; [exact Eg|]. split; [|split; [reflexivity|split]].
  - destruct (snd g); [destruct Hin | discriminate].
  - apply sql_round_compat. now field.
  - apply sql_round_compat. now field.
Qed.

(** The SQL sum over all rows with 0 for the rows that did not churn is
    the sum over the churned rows. *)
Lemma sum_case_churned (f : CustomerRecord Q -> Q)
      (t : list (CustomerRecord Q)) :
  Qsum (map (fun r => sql_case [ (Churn r =? "Yes", f r) ] 0) t)
  == Qsum (map f (filter is_churned t)).
Proof.
  unfold is_churned.
  induction t as [| r t IH]; simpl; [reflexivity|].
  destruct (Churn r =? "Yes"); simpl; rewrite IH; ring.
Qed.

Lemma sql_sum_nonempty {A : Type} (f : A -> Q) (l : list A) :
  l <> [] -> sql_sum (map f l) = Some (Qsum (map f l)).
Proof. destruct l; [contradiction | reflexivity]. Qed.

Lemma sql_clv_cases (r : CustomerRecord Q) :
  sql_clv r = if Qltb 0 (TotalCharges r) then TotalCharges r
              else MonthlyCharges r * inject_Z (tenure r).
Proof. reflexivity. Qed.

(** C1, as the code has it.  The [clv] column of the SQL view is the total
    charge of the record when that is greater than 0 and monthly charge
    times tenure otherwise.  The lifetime value of the pandas revenue
    estimator is monthly charge times tenure for every record, and so is the
    term the SQL revenue query sums: the two lifetime values lost are equal.
    The estimator's value is the [clv] of a record exactly when its total
    charge is not positive or equals monthly charge times tenure. *)
Theorem lifetime_value_proxy (t : list (CustomerRecord Q)) :
  (forall row, In row (customer_segments t) ->
     let r := cs_customer row in
     In r t
     /\ (0 < TotalCharges r -> clv row = TotalCharges r)
     /\ (~ 0 < TotalCharges r ->
         clv row = MonthlyCharges r * inject_Z (tenure r))
     /\ estimated_lifetime_value r = MonthlyCharges r * inject_Z (tenure r)
     /\ (clv row == estimated_lifetime_value r
         <-> TotalCharges r <= 0
             \/ TotalCharges r == MonthlyCharges r * inject_Z (tenure r)))
  /\ lifetime_value_lost (fst (revenue_impact_analysis t))
     = Qsum (map (fun r => MonthlyCharges r * inject_Z (tenure r))
                 (filter is_churned t))
  /\ (t <> [] ->
      exists v, snd (sql_revenue_lost t) = Some v
                /\ v == lifetime_value_lost (fst (revenue_impact_analysis t))).
Proof.
  split; [|split].
  - intros row Hrow.
    destruct (customer_segments_row_of t row Hrow) as [Hin [_ [_ Hc]]].
    simpl. split; [exact Hin|]. rewrite Hc, sql_clv_cases.
    unfold estimated_lifetime_value.
    destruct (Qltb 0 (TotalCharges (cs_customer row))) eqn:P.
    + apply Qltb_lt in P.
      split; [reflexivity|]. split; [tauto|]. split; [reflexivity|].
      split.
      * intros E. right. exact E.
      * intros [L | E]; [|exact E]. exfalso. lra.
    + assert (N : ~ 0 < TotalCharges (cs_customer row)).
      { intros L. apply Qltb_lt in L. congruence. }
      split; [tauto|]. split; [reflexivity|]. split; [reflexivity|].
      split.
      * intros _. left. now apply Qnot_lt_le.
      * intros _. reflexivity.
  - simpl. now rewrite churned_of_with_segments.
  - intros Hne.
    exists (Qsum (map (fun r => sql_case
                                  [ (Churn r =? "Yes",
                                     MonthlyCharges r * inject_Z (tenure r)) ]
                                  0) t)).
    split; [exact (sql_sum_nonempty _ t Hne)|].
    rewrite sum_case_churned. simpl.
    now rewrite churned_of_with_segments.
Qed.

(** The customer of one month has a [clv] of 100, his recorded total. *)
Lemma lifetime_value_proxy_witness :
  exists row,
    In row (customer_segments [one_month_customer])
    /\ 0 < TotalCharges (cs_customer row)
    /\ clv row = 100.
Proof.
  eexists. split; [left; reflexivity|]. split; [reflexivity|].
  exact (proj1 (proj2 (proj1 (lifetime_value_proxy [one_month_customer]) _
                             (or_introl eq_refl)))
               eq_refl).
Defined.

(** C1 as stated fails: for a customer of one month with a monthly charge
    of 50 and a recorded total of 100, greater than 0, the pandas estimator
    takes 50 as lifetime value, not the total, and differs from the [clv]
    of the SQL view. *)
Lemma lifetime_value_ignores_total_charge :
  0 < TotalCharges one_month_customer
  /\ estimated_lifetime_value one_month_customer == 50
  /\ sql_clv one_month_customer == 100
  /\ ~ estimated_lifetime_value one_month_customer
       == TotalCharges one_month_customer
  /\ ~ estimated_lifetime_value one_month_customer
       == sql_clv one_month_customer.
Proof.
  repeat split; try reflexivity; intros H; discriminate H.
Qed.




(** * Further properties of the code *)

(** ** Cohorts and tenure bins *)

(** Every integer test of the goal, decided from the hypotheses. *)
Ltac decide_tests :=
  repeat match goal with
    | |- context [(?a <? ?b)%Z] =>
        first [ rewrite (proj2 (Z.ltb_lt a b)) by lia
              | rewrite (proj2 (Z.ltb_ge a b)) by lia ]
    | |- context [(?a <=? ?b)%Z] =>
        first [ rewrite (proj2 (Z.leb_le a b)) by lia
              | rewrite (proj2 (Z.leb_gt a b)) by lia ]
    end;
  simpl.

(** The cohort group is a function of the tenure, the bands running
    against it: the customers of under a year are the group "60+", those of
    60 to 71 months the group "0-12".  A customer of 72 months or more, or
    of a negative tenure, has cohort month 0 or more than 72 and falls in no
    group. *)
Theorem cohort_group_by_tenure {T : Type} (r : CustomerRecord T) :
  cohort_group r
  = (if (tenure r <? 0)%Z then None
     else if (tenure r <? 12)%Z then Some "60+"
     else if (tenure r <? 24)%Z then Some "49-60"
     else if (tenure r <? 36)%Z then Some "37-48"
     else if (tenure r <? 48)%Z then Some "25-36"
     else if (tenure r <? 60)%Z then Some "13-24"
     else if (tenure r <? 72)%Z then Some "0-12"
     else None)
  /\ (cohort_group r = None <-> (tenure r < 0 \/ 72 <= tenure r)%Z)
  /\ (0 <= cohort_month r)%Z.
Proof.
  unfold cohort_group, cohort_month.
  set (t := tenure r). clearbody t.
  assert (Tree :
    cut (Z.max 0 (72 - t)) [0; 12; 24; 36; 48; 60; 72]%Z
        [ "0-12"; "13-24"; "25-36"; "37-48"; "49-60"; "60+" ]
    = (if (t <? 0)%Z then None
       else if (t <? 12)%Z then Some "60+"
       else if (t <? 24)%Z then Some "49-60"
       else if (t <? 36)%Z then Some "37-48"
       else if (t <? 48)%Z then Some "25-36"
       else if (t <? 60)%Z then Some "13-24"
       else if (t <? 72)%Z then Some "0-12"
       else None)).
  { unfold cut.
    destruct (Z_lt_le_dec t 0); [decide_tests; reflexivity|].
    destruct (Z_lt_le_dec t 12); [decide_tests; reflexivity|].
    destruct (Z_lt_le_dec t 24); [decide_tests; reflexivity|].
    destruct (Z_lt_le_dec t 36); [decide_tests; reflexivity|].
    destruct (Z_lt_le_dec t 48); [decide_tests; reflexivity|].
    destruct (Z_lt_le_dec t 60); [decide_tests; reflexivity|].
    destruct (Z_lt_le_dec t 72); decide_tests; reflexivity. }
  split; [exact Tree|]. split; [|lia].
  rewrite Tree. split.
  - intros H.
    destruct (Z_lt_le_dec t 0); [lia|].
    destruct (Z_lt_le_dec t 72); [|lia].
    exfalso. revert H.
    destruct (Z_lt_le_dec t 12); [decide_tests; discriminate|].
    destruct (Z_lt_le_dec t 24); [decide_tests; discriminate|].
    destruct (Z_lt_le_dec t 36); [decide_tests; discriminate|].
    destruct (Z_lt_le_dec t 48); [decide_tests; discriminate|].
    destruct (Z_lt_le_dec t 60); decide_tests; discriminate.
  - intros [H | H]; decide_tests; reflexivity.
Qed.

(** The tenure bins of the insights start above 0: a customer of tenure 0
    (or of more than 72 months) falls in no bin, every other one in the bin
    of his tenure. *)
Theorem tenure_bin_by_tenure {T : Type} (r : CustomerRecord T) :
  tenure_bin r
  = (if (tenure r <=? 0)%Z then None
     else if (tenure r <=? 12)%Z then Some "(0, 12]"
     else if (tenure r <=? 24)%Z then Some "(12, 24]"
     else if (tenure r <=? 36)%Z then Some "(24, 36]"
     else if (tenure r <=? 72)%Z then Some "(36, 72]"
     else None)
  /\ (tenure_bin r = None <-> (tenure r <= 0 \/ 72 < tenure r)%Z).
Proof.
  unfold tenure_bin. set (t := tenure r). clearbody t.
  assert (Tree :
    cut t [0; 12; 24; 36; 72]%Z
        [ "(0, 12]"; "(12, 24]"; "(24, 36]"; "(36, 72]" ]
    = (if (t <=? 0)%Z then None
       else if (t <=? 12)%Z then Some "(0, 12]"
       else if (t <=? 24)%Z then Some "(12, 24]"
       else if (t <=? 36)%Z then Some "(24, 36]"
       else if (t <=? 72)%Z then Some "(36, 72]"
       else None)).
  { unfold cut.
    destruct (Z_le_gt_dec t 0); [decide_tests; reflexivity|].
    destruct (Z_le_gt_dec t 12); [decide_tests; reflexivity|].
    destruct (Z_le_gt_dec t 24); [decide_tests; reflexivity|].
    destruct (Z_le_gt_dec t 36); [decide_tests; reflexivity|].
    destruct (Z_le_gt_dec t 72); decide_tests; reflexivity. }
  split; [exact Tree|]. rewrite Tree. split.
  - intros H.
    destruct (Z_le_gt_dec t 0); [lia|].
    destruct (Z_le_gt_dec t 72); [|lia].
    exfalso. revert H.
    destruct (Z_le_gt_dec t 12); [decide_tests; discriminate|].
    destruct (Z_le_gt_dec t 24); [decide_tests; discriminate|].
    destruct (Z_le_gt_dec t 36); decide_tests; discriminate.
  - intros [H | H]; decide_tests; reflexivity.
Qed.

(** ** Lifetime value *)

(** With a non-negative monthly charge and tenure, both lifetime values are
    non-negative whatever the recorded total charge is, even a negative
    one; and the [clv] of the view is positive as soon as the total is. *)
Theorem lifetime_values_nonnegative (r : CustomerRecord Q) :
  0 <= MonthlyCharges r -> (0 <= tenure r)%Z ->
  0 <= sql_clv r
  /\ 0 <= estimated_lifetime_value r
  /\ (0 < TotalCharges r -> 0 < sql_clv r).
Proof.
  intros Hm Ht.
  assert (P : 0 <= MonthlyCharges r * inject_Z (tenure r)).
  { apply Qmult_le_0_compat; [exact Hm|].
    change 0 with (inject_Z 0). now rewrite <- Zle_Qle. }
  rewrite sql_clv_cases. unfold estimated_lifetime_value.
  destruct (Qltb 0 (TotalCharges r)) eqn:E.
  - apply Qltb_lt in E. repeat split; auto using Qlt_le_weak.
  - repeat split; auto. intros L. apply Qltb_lt in L. congruence.
Qed.

Lemma lifetime_values_nonnegative_witness :
  0 <= sql_clv one_month_customer
  /\ 0 <= estimated_lifetime_value one_month_customer.
Proof.
  destruct (lifetime_values_nonnegative one_month_customer) as [A [B _]].
  - discriminate.
  - discriminate.
  - split; [exact A | exact B].
Defined.



(** ** The keys of the [churn_summary] view *)

(** The household type reads both flags: Family when partner and dependents
    are both 'Yes', Couple/Single Parent when exactly one of them is, Single
    when neither is; the age group is Senior exactly for the flag 1. *)
Theorem household_type_cases (r : CustomerRecord Q) :
  (household_type r = "Family"
   <-> Partner r = "Yes" /\ Dependents r = "Yes")
  /\ (household_type r = "Couple/Single Parent"
      <-> (Partner r = "Yes" /\ Dependents r <> "Yes")
          \/ (Partner r <> "Yes" /\ Dependents r = "Yes"))
  /\ (household_type r = "Single"
      <-> Partner r <> "Yes" /\ Dependents r <> "Yes")
  /\ (age_group r = "Senior" <-> SeniorCitizen r = 1%Z)
  /\ (age_group r = "Non-Senior" <-> SeniorCitizen r <> 1%Z).
Proof.
  unfold household_type, age_group. simpl.
  destruct (String.eqb_spec (Partner r) "Yes") as [P | P],
           (String.eqb_spec (Dependents r) "Yes") as [D | D],
           (Z.eqb_spec (SeniorCitizen r) 1) as [S | S]; simpl;
    repeat split; intros; try discriminate; try tauto;
    intuition congruence.
Qed.

(** ** Price bands *)

Lemma price_segment_tree (r : CustomerRecord Q) :
  price_segment r
  = (if Qle_bool (MonthlyCharges r) 30 then "Low Price ($0-30)"
     else if Qle_bool (MonthlyCharges r) 60 then "Medium Price ($31-60)"
     else if Qle_bool (MonthlyCharges r) 90 then "High Price ($61-90)"
     else "Premium Price ($90+)").
Proof. reflexivity. Qed.

(** Rational tests as propositions. *)
Ltac qbool :=
  repeat match goal with
    | H : Qle_bool _ _ = true |- _ => apply Qle_bool_iff in H
    | H : Qle_bool ?a ?b = false |- _ =>
        assert (b < a)
          by (apply Qnot_le_lt; intros L; apply Qle_bool_iff in L;
              congruence);
        clear H
    | H : _ /\ _ |- _ => destruct H
    end.

Ltac by_charge m :=
  destruct (Qle_bool m 30) eqn:?, (Qle_bool m 60) eqn:?,
           (Qle_bool m 90) eqn:?;
  qbool; simpl.


(** The price bands are intervals of the monthly charge that leave no gap:
    up to 30, above 30 up to 60 (30.50 is Medium, though the label reads
    31-60), above 60 up to 90, above 90.  A higher charge never gets a
    lower band. *)
Theorem price_segment_bands (r r' : CustomerRecord Q) :
  (price_segment r = "Low Price ($0-30)" <-> MonthlyCharges r <= 30)
  /\ (price_segment r = "Medium Price ($31-60)"
      <-> 30 < MonthlyCharges r <= 60)
  /\ (price_segment r = "High Price ($61-90)"
      <-> 60 < MonthlyCharges r <= 90)
  /\ (price_segment r = "Premium Price ($90+)" <-> 90 < MonthlyCharges r)
  /\ (MonthlyCharges r <= MonthlyCharges r' ->
      (band_rank (price_segment r) <= band_rank (price_segment r'))%nat).
Proof.
  rewrite !price_segment_tree.
  split; [|split; [|split; [|split]]].
  1-4: by_charge (MonthlyCharges r); split; intros; qbool;
       try reflexivity; try discriminate; try split; try lra;
       exfalso; lra.
  intros Hle.
  by_charge (MonthlyCharges r); by_charge (MonthlyCharges r');
    try (unfold band_rank; simpl; lia); exfalso; lra.
Qed.

Lemma price_segment_bands_witness :
  (band_rank (price_segment one_month_customer)
   <= band_rank (price_segment established_customer))%nat.
Proof.
  apply (proj2 (proj2 (proj2 (proj2
           (price_segment_bands one_month_customer established_customer))))).
  discriminate.
Defined.

(** ** More on group-by *)

Section GroupByKeys.

Variables K R : Type.
Variable key_eqb : K -> K -> bool.
Hypothesis key_eqb_eq : forall a b, key_eqb a b = true <-> a = b.

Lemma group_by_keys_NoDup (key : R -> K) (rows : list R) :
  NoDup (map fst (group_by key_eqb key rows)).
Proof.
  unfold group_by. rewrite map_map. simpl. rewrite map_id.
  now apply distinct_NoDup.
Qed.

(** Every row is in the group of its key. *)
Lemma group_by_complete (key : R -> K) (rows : list R) (r : R) :
  In r rows ->
  In (key r, group_of key_eqb key rows (key r)) (group_by key_eqb key rows).
Proof.
  intros Hr. unfold group_by. apply in_map_iff. exists (key r).
  split; [reflexivity|]. apply distinct_In; [exact key_eqb_eq|].
  now apply in_map.
Qed.

Variable key_leb : K -> K -> bool.

Lemma groupby_complete (key : R -> K) (rows : list R) (r : R) :
  In r rows ->
  In (key r, group_of key_eqb key rows (key r))
     (groupby key_eqb key_leb key rows).
Proof.
  intros Hr. unfold groupby. apply in_map_iff. exists (key r).
  split; [reflexivity|].
  apply (Permutation_in _ (Permutation_sym (sort_keys_perm _ _ _))).
  apply distinct_In; [exact key_eqb_eq|]. now apply in_map.
Qed.

Lemma groupby_nil_iff (key : R -> K) (rows : list R) :
  groupby key_eqb key_leb key rows = [] <-> rows = [].
Proof.
  split; [|intros ->; reflexivity].
  destruct rows as [| r rows]; [reflexivity|]. intros E.
  pose proof (groupby_complete key (r :: rows) r (or_introl eq_refl)) as H.
  rewrite E in H. destruct H.
Qed.

End GroupByKeys.

Lemma sequence_Forall2 {A B : Type} (f : A -> option B) (l : list A)
      (bs : list B) :
  sequence (map f l) = Some bs -> Forall2 (fun a b => f a = Some b) l bs.
Proof.
  revert bs. induction l as [| a l IH]; simpl; intros bs E.
  - injection E as <-. constructor.
  - destruct (f a) as [b|] eqn:Fa; [|discriminate].
    destruct (sequence (map f l)) as [bs'|]; [|discriminate].
    injection E as <-. constructor; auto.
Qed.

Lemma Forall2_map_eq {A B C : Type} (R : A -> B -> Prop) (f : A -> C)
      (h : B -> C) (l : list A) (bs : list B) :
  Forall2 R l bs -> (forall a b, R a b -> f a = h b) ->
  map f l = map h bs.
Proof.
  intros F H. induction F; simpl; [reflexivity|].
  f_equal; auto.
Qed.

Lemma summarize_Some (g : summary_key * list (CustomerRecord Q))
      (row : churn_summary_row) :
  summarize g = Some row ->
  summary_group row = fst g
  /\ summary_customer_count row = List.length (snd g)
  /\ summary_churned_customers row = sql_sum_churn (snd g).
Proof.
  unfold summarize. destruct (sql_churn_rate_percent (snd g));
    [|discriminate].
  intros E. injection E as <-. simpl. auto.
Qed.

Lemma Zsum_of_nat (l : list nat) :
  fold_right Z.add 0%Z (map Z.of_nat l) = Z.of_nat (nat_sum l).
Proof. induction l as [| n l IH]; simpl; [reflexivity|]. rewrite IH. lia. Qed.

(** ** The [churn_summary] view partitions the table *)

(** The view always has rows to give, one per combination of contract,
    internet service, age group and household type that occurs; their
    customer counts add up to the size of the table and their churned
    counts to its number of churned customers. *)
Theorem churn_summary_partitions (t : list (CustomerRecord Q)) :
  exists rows,
    churn_summary t = Some rows
    /\ nat_sum (map summary_customer_count rows) = List.length t
    /\ fold_right Z.add 0%Z (map summary_churned_customers rows)
       = Z.of_nat (count_churned t)
    /\ NoDup (map summary_group rows).
Proof.
  destruct (churn_summary_defined t) as [rows E]. exists rows.
  split; [exact E|].
  pose proof (sequence_Forall2 _ _ _ E) as F.
  set (groups := group_by summary_key_eqb churn_summary_key t) in *.
  split; [|split].
  - rewrite <- (Forall2_map_eq _ (fun g => List.length (snd g)) _ _ _ F)
      by (intros g row S; now destruct (summarize_Some g row S) as [_ [-> _]]).
    rewrite (map_ext _ (fun g => nat_sum (map (fun _ => 1%nat) (snd g))))
      by (intros g; now rewrite nat_sum_ones).
    unfold groups.
    rewrite (group_by_partition _ _ summary_key_eqb summary_key_eqb_eq).
    apply nat_sum_ones.
  - rewrite <- (Forall2_map_eq _
                  (fun g => Z.of_nat (count_churned (snd g))) _ _ _ F)
      by (intros g row S; destruct (summarize_Some g row S) as [_ [_ ->]];
          now rewrite sql_sum_churn_count).
    rewrite <- (map_map (fun g => count_churned (snd g)) Z.of_nat).
    rewrite Zsum_of_nat. f_equal.
    rewrite (map_ext _ (fun g => nat_sum
                                   (map (fun r => if is_churned r
                                                  then 1%nat else 0%nat)
                                        (snd g))))
      by (intros g; apply count_as_sum).
    unfold groups.
    rewrite (group_by_partition _ _ summary_key_eqb summary_key_eqb_eq).
    symmetry. apply count_as_sum.
  - rewrite <- (Forall2_map_eq _ fst _ _ _ F)
      by (intros g row S; now destruct (summarize_Some g row S) as [-> _]).
    apply (group_by_keys_NoDup _ _ summary_key_eqb summary_key_eqb_eq).
Qed.

(** ** The segments of the revenue table *)

Lemma filter_filter_comm {A : Type} (p q : A -> bool) (l : list A) :
  filter p (filter q l) = filter q (filter p l).
Proof.
  induction l as [| a l IH]; simpl; [reflexivity|].
  destruct (p a) eqn:P, (q a) eqn:Q'; simpl; rewrite ?P, ?Q', IH;
    reflexivity.
Qed.

Lemma segment_group_members (df : list (CustomerRecord Q)) (k : string) :
  map fst (group_of String.eqb snd (with_segments df) k)
  = filter (fun r => create_segments r =? k) df.
Proof.
  unfold group_of, with_segments.
  induction df as [| r df IH]; simpl; [reflexivity|].
  destruct (create_segments r =? k); simpl; now rewrite IH.
Qed.

Lemma with_segments_In (df : list (CustomerRecord Q))
      (row : CustomerRecord Q * string) :
  In row (with_segments df)
  <-> In (fst row) df /\ snd row = create_segments (fst row).
Proof.
  unfold with_segments. rewrite in_map_iff. split.
  - intros [r [<- Hr]]. simpl. auto.
  - intros [Hr E]. exists (fst row). split; [|exact Hr].
    destruct row as [r s]. simpl in *. now subst s.
Qed.

(** The pandas table of revenue by segment has a row for exactly the
    segments that have churned customers (the segment analysis keeps the
    others, with a churned count of 0): each of its rows counts at least one
    churned customer, agrees with the row of the same segment in the segment
    analysis on that count, and the counts add up to the number of churned
    customers. *)
Theorem revenue_rows_are_churned_segments (df : list (CustomerRecord Q)) :
  (forall row, In row (snd (revenue_impact_analysis df)) ->
     (0 < rs_churned_customers row)%nat
     /\ exists srow,
          In srow (customer_segmentation df)
          /\ sa_customer_segment srow = rs_customer_segment row
          /\ churned_customers srow = rs_churned_customers row)
  /\ (forall srow, In srow (customer_segmentation df) ->
        (0 < churned_customers srow)%nat ->
        exists row,
          In row (snd (revenue_impact_analysis df))
          /\ rs_customer_segment row = sa_customer_segment srow)
  /\ nat_sum (map rs_churned_customers (snd (revenue_impact_analysis df)))
     = count_churned df.
Proof.
  unfold revenue_impact_analysis. simpl snd.
  split; [|split].
  - intros row Hrow.
    destruct (revenue_by_segment_row_of df row Hrow)
      as [members [Em [Hne [Hc _]]]].
    rewrite Hc. destruct members as [| r members']; [congruence|].
    split; [simpl; lia|].
    assert (Hr : In r (filter (fun r => create_segments r
                                        =? rs_customer_segment row)
                              (filter is_churned df)))
      by (rewrite <- Em; now left).
    apply filter_In in Hr. destruct Hr as [Hr Hk].
    apply filter_In in Hr. destruct Hr as [Hr _].
    apply String.eqb_eq in Hk.
    exists (aggregate_segment
              (rs_customer_segment row,
               group_of String.eqb snd (with_segments df)
                        (rs_customer_segment row))).
    split; [|split; [reflexivity|]].
    + unfold customer_segmentation. apply in_map.
      assert (Hin : In (r, create_segments r) (with_segments df))
        by (apply with_segments_In; simpl; auto).
      pose proof (groupby_complete _ _ String.eqb String.eqb_eq String.leb
                                   snd (with_segments df) _ Hin) as G.
      simpl in G. now rewrite Hk in G.
    + simpl. rewrite segment_group_members. unfold count_churned.
      now rewrite filter_filter_comm, <- Em.
  - intros srow Hsrow Hpos.
    destruct (customer_segmentation_row df srow Hsrow)
      as [g [-> [Hg _]]].
    destruct (groupby_nonempty _ _ String.eqb String.eqb_eq String.leb
                               snd (with_segments df) g Hg) as [Eg _].
    simpl in Hpos. rewrite Eg, segment_group_members in Hpos.
    unfold count_churned in Hpos.
    destruct (filter is_churned
                     (filter (fun r => create_segments r =? fst g) df))
      as [| r rest] eqn:F; [simpl in Hpos; lia|].
    assert (Hr : In r (filter is_churned
                         (filter (fun r => create_segments r =? fst g) df)))
      by (rewrite F; now left).
    apply filter_In in Hr. destruct Hr as [Hr Hch].
    apply filter_In in Hr. destruct Hr as [Hr Hk].
    apply String.eqb_eq in Hk.
    assert (Hin : In (r, create_segments r) (churned_of (with_segments df))).
    { unfold churned_of. apply filter_In. split; [|exact Hch].
      apply with_segments_In. simpl. auto. }
    pose proof (groupby_complete _ _ String.eqb String.eqb_eq String.leb
                                 snd _ _ Hin) as G.
    simpl in G.
    eexists. split.
    + unfold revenue_by_segment. apply in_map. exact G.
    + simpl. exact Hk.
  - unfold revenue_by_segment. rewrite map_map. simpl.
    rewrite (map_ext _ (fun g => nat_sum (map (fun _ => 1%nat) (snd g))))
      by (intros g; now rewrite length_map, nat_sum_ones).
    rewrite (groupby_partition _ _ String.eqb String.eqb_eq).
    rewrite nat_sum_ones, <- (length_map fst), churned_of_with_segments.
    reflexivity.
Qed.

Lemma revenue_rows_are_churned_segments_witness :
  exists row,
    In row (snd (revenue_impact_analysis sample_customers))
    /\ (0 < rs_churned_customers row)%nat.
Proof.
  eexists. split; [left; reflexivity|].
  exact (proj1 (proj1 (revenue_rows_are_churned_segments sample_customers)
                      _ (or_introl eq_refl))).
Defined.

(** ** Churn rates of the insights *)

Lemma group_churn_rate_defined {T : Type} (x : list (CustomerRecord T)) :
  (0 < List.length x)%nat ->
  group_churn_rate x
  = Some (Qnat (count_churned x) / Qnat (List.length x) * 100).
Proof.
  intros Hn. unfold group_churn_rate, true_divide.
  now rewrite (Qnat_nonzero _ Hn).
Qed.

(** The overall churn rate of the pandas variant is NaN on an empty frame,
    without an exception, and a percentage between 0 and 100 on any other.
    The overall query of the SQL variant never raises either: over an empty
    table its rate is NULL, over any other the same percentage, rounded,
    between 0 and 100. *)
Theorem overall_churn_rate_cases (df : list (CustomerRecord Q)) :
  (df = [] ->
   overall_churn_rate df = NaN
   /\ sql_overall_churn df = Some (0%nat, None, None))
  /\ (df <> [] ->
      let p := Qnat (count_churned df) / Qnat (List.length df) * 100 in
      overall_churn_rate df = Some p
      /\ 0 <= p <= 100
      /\ exists rate,
           sql_overall_churn df
           = Some (List.length df, Some (Z.of_nat (count_churned df)),
                   Some rate)
           /\ rate = sql_round (inject_Z (Z.of_nat (count_churned df)) * 100
                                / Qnat (List.length df)) 2
           /\ 0 <= rate <= 100).
Proof.
  split.
  - intros ->. split; reflexivity.
  - intros Hne.
    assert (Hn : (0 < List.length df)%nat)
      by (destruct df; [congruence | simpl; lia]).
    cbv zeta. split; [exact (group_churn_rate_defined df Hn)|].
    split; [exact (percentage_bounds _ _ (count_churned_le df) Hn)|].
    eexists. split; [|split; [reflexivity|]].
    + unfold sql_overall_churn. destruct df as [| r df']; [congruence|].
      rewrite (sql_churn_rate_percent_defined _ Hn).
      now rewrite sql_sum_churn_count.
    + exact (sql_round_bounds _ 2 0 100 (Z.le_refl 0)
               (sql_percentage_bounds _ _ (count_churned_le df) Hn)).
Qed.

Lemma overall_churn_rate_cases_witness :
  overall_churn_rate sample_customers = Some (200 # 3)
  /\ 0 <= 200 # 3 <= 100.
Proof.
  destruct (proj2 (overall_churn_rate_cases sample_customers)) as [E [B _]].
  - discriminate.
  - split; [reflexivity | exact B].
Defined.



Lemma groupby_group_size {T : Type} (column : CustomerRecord T -> string)
      (df : list (CustomerRecord T)) (g : string * list (CustomerRecord T)) :
  In g (groupby String.eqb String.leb column df) ->
  (0 < List.length (snd g))%nat.
Proof.
  intros Hin.
  destruct (groupby_nonempty _ _ String.eqb String.eqb_eq String.leb
                             column df g Hin) as [_ [r [Hr _]]].
  exact (nonempty_length _ _ Hr).
Qed.

(** The series of the group rates holds no NaN. *)
Lemma churn_by_rates {T : Type} (column : CustomerRecord T -> string)
      (df : list (CustomerRecord T)) :
  churn_by column df
  = map (fun g => (fst g,
                   Some (Qnat (count_churned (snd g))
                         / Qnat (List.length (snd g)) * 100)))
        (groupby String.eqb String.leb column df).
Proof.
  unfold churn_by. apply map_ext_in. intros g Hin.
  now rewrite (group_churn_rate_defined _ (groupby_group_size _ _ _ Hin)).
Qed.



(** [idxmax_from] returns the label of a greatest value among the best so
    far and the values that follow. *)
Lemma idxmax_from_greatest (s : list (string * float)) (best : string * Q) :
  exists v,
    (In (idxmax_from best s, Some v) s \/ (idxmax_from best s, v) = best)
    /\ snd best <= v
    /\ forall k' v', In (k', Some v') s -> v' <= v.
Proof.
  revert best. induction s as [| [k [x|]] s IH]; intros best; simpl.
  - exists (snd best). split; [right; now destruct best|].
    split; [apply Qle_refl|]. intros k' v' [].
  - destruct (Qltb (snd best) x) eqn:L.
    + apply Qltb_lt in L.
      destruct (IH (k, x)) as [v [Hin [Hb Hall]]]. simpl in Hb.
      exists v. split; [|split].
      * destruct Hin as [Hin | E]; [left; now right|].
        injection E as E1 E2. left. left. now rewrite E1, E2.
      * apply Qlt_le_weak. now apply (Qlt_le_trans _ x).
      * intros k' v' [E | Hin']; [injection E as <- <-; exact Hb|].
        eapply Hall; eauto.
    + assert (Hx : x <= snd best).
      { apply Qnot_lt_le. intros L'. apply Qltb_lt in L'. congruence. }
      destruct (IH best) as [v [Hin [Hb Hall]]].
      exists v. split; [|split; [exact Hb|]].
      * destruct Hin as [Hin | E]; [left; now right | now right].
      * intros k' v' [E | Hin']; [injection E as <- <-|].
        -- now apply (Qle_trans _ (snd best)).
        -- eapply Hall; eauto.
  - destruct (IH best) as [v [Hin [Hb Hall]]].
    exists v. split; [|split; [exact Hb|]].
    + destruct Hin as [Hin | E]; [left; now right | now right].
    + intros k' v' [E | Hin']; [discriminate|]. eapply Hall; eauto.
Qed.

Lemma idxmax_greatest (s : list (string * float)) (k : string) :
  idxmax s = Some k ->
  exists v, In (k, Some v) s /\ forall k' v', In (k', Some v') s -> v' <= v.
Proof.
  induction s as [| [k0 [x|]] s IH]; simpl; [discriminate| |].
  - intros E. injection E as <-.
    destruct (idxmax_from_greatest s (k0, x)) as [v [Hin [Hb Hall]]].
    simpl in Hb. exists v. split.
    + destruct Hin as [Hin | E]; [now right|].
      injection E as E1 E2. left. now rewrite E1, E2.
    + intros k' v' [E | Hin']; [injection E as <- <-; exact Hb|].
      eapply Hall; eauto.
  - intros E. destruct (IH E) as [v [Hin Hall]].
    exists v. split; [now right|].
    intros k' v' [E' | Hin']; [discriminate|]. eapply Hall; eauto.
Qed.

(** The customers with the highest churn rate: [idxmax] raises exactly on
    an empty frame; on any other it names a value of the column whose group
    has a churn rate that no other group exceeds. *)
Theorem highest_churn_is_greatest {T : Type}
        (column : CustomerRecord T -> string) (df : list (CustomerRecord T)) :
  (highest_churn column df = None <-> df = [])
  /\ (forall k, highest_churn column df = Some k ->
        exists v,
          In (k, Some v) (churn_by column df)
          /\ (exists r, In r df /\ column r = k)
          /\ forall k' v', In (k', Some v') (churn_by column df) -> v' <= v).
Proof.
  unfold highest_churn.
  pose proof (churn_by_rates column df) as Series.
  split.
  - split; [|intros ->; reflexivity].
    rewrite Series.
    destruct (groupby String.eqb String.leb column df) as [| g gs] eqn:G.
    + intros _. now apply (groupby_nil_iff _ _ String.eqb String.eqb_eq
                                           String.leb column df).
    + simpl. discriminate.
  - intros k E. destruct (idxmax_greatest _ k E) as [v [Hin Hall]].
    exists v. split; [exact Hin|]. split; [|exact Hall].
    unfold churn_by in Hin. apply in_map_iff in Hin.
    destruct Hin as [g [Eg Hg]]. injection Eg as Ek _.
    destruct (groupby_nonempty _ _ String.eqb String.eqb_eq String.leb
                               column df g Hg) as [_ [r [_ [Hr Hk]]]].
    exists r. split; [exact Hr|]. congruence.
Qed.

Lemma highest_churn_is_greatest_witness :
  exists v,
    highest_churn Contract sample_customers = Some "Month-to-month"
    /\ In ("Month-to-month", Some v) (churn_by Contract sample_customers)
    /\ forall k' v', In (k', Some v') (churn_by Contract sample_customers) ->
                     v' <= v.
Proof.
  destruct (proj2 (highest_churn_is_greatest Contract sample_customers)
                  "Month-to-month" eq_refl) as [v [Hin [_ Hall]]].
  exists v. split; [reflexivity|]. split; [exact Hin | exact Hall].
Defined.

(** ** Sums of money over groups *)




Lemma Qsum_nonneg (l : list Q) : (forall x, In x l -> 0 <= x) -> 0 <= Qsum l.
Proof.
  induction l as [| a l IH]; intros H; simpl; [apply Qle_refl|].
  pose proof (H a (or_introl eq_refl)).
  assert (0 <= Qsum l) by (apply IH; intros; apply H; now right).
  lra.
Qed.

Lemma Qsum_ge_member (l : list Q) (x : Q) :
  (forall y, In y l -> 0 <= y) -> In x l -> x <= Qsum l.
Proof.
  induction l as [| a l IH]; intros H Hin; [destruct Hin|].
  simpl. pose proof (H a (or_introl eq_refl)).
  assert (0 <= Qsum l) by (apply Qsum_nonneg; intros; apply H; now right).
  destruct Hin as [-> | Hin]; [lra|].
  assert (x <= Qsum l) by (apply IH; [intros; apply H; now right | exact Hin]).
  lra.
Qed.

Section MoneyByGroup.

Variables K R : Type.
Variable key_eqb : K -> K -> bool.
Hypothesis key_eqb_eq : forall a b, key_eqb a b = true <-> a = b.




Variable key_leb : K -> K -> bool.


End MoneyByGroup.

(** ** Revenue lost, overall and by group *)




(** ** The share of each group in the annual loss *)

Lemma sql_round_nonneg (x : Q) (d : nat) : 0 <= x -> 0 <= sql_round x d.
Proof.
  intros Hx. pose proof (pow10_pos d) as P. unfold sql_round.
  assert (Hy : 0 <= x * pow10 d)
    by (apply Qmult_le_0_compat; [exact Hx | now apply Qlt_le_weak]).
  assert (Hm : (0 <= round_half_away (x * pow10 d))%Z).
  { unfold round_half_away.
    rewrite (proj2 (Qle_bool_iff 0 (x * pow10 d)) Hy).
    assert (L : inject_Z 0 <= x * pow10 d + (1 # 2))
      by (change (inject_Z 0) with 0; lra).
    apply Qfloor_resp_le in L. now rewrite Qfloor_Z in L. }
  apply Qle_shift_div_l; [exact P|].
  rewrite Zle_Qle in Hm. change (inject_Z 0) with 0 in Hm. lra.
Qed.

Lemma sql_div_Some (a b q : Q) :
  sql_div a b = Some q -> Qeq_bool b 0 = false /\ q = a / b.
Proof.
  unfold sql_div. destruct (Qeq_bool b 0); [discriminate|].
  intros E. injection E as <-. auto.
Qed.

Lemma churn_revenue_nil_iff (t : list (CustomerRecord Q)) :
  churn_revenue t = [] <-> count_churned t = 0%nat.
Proof.
  unfold churn_revenue, count_churned.
  destruct (filter is_churned t) as [| r rest] eqn:F.
  - split; reflexivity.
  - split; [|discriminate]. intros E. exfalso.
    apply map_eq_nil in E.
    pose proof (group_by_complete _ _ revenue_key_eqb revenue_key_eqb_eq
                  (fun r => (Contract r, InternetService r))
                  (r :: rest) r (or_introl eq_refl)) as H.
    rewrite E in H. destruct H.
Qed.

Lemma churn_revenue_nonneg (t : list (CustomerRecord Q))
      (row : churn_revenue_row) :
  (forall r, In r t -> 0 <= MonthlyCharges r) ->
  In row (churn_revenue t) -> 0 <= cr_annual_revenue_lost row.
Proof.
  intros Hm Hrow.
  destruct (churn_revenue_row_of t row Hrow) as [members [Em [_ [_ [_ ->]]]]].
  apply sql_round_nonneg.
  assert (0 <= Qsum (map MonthlyCharges members)); [|lra].
  apply Qsum_nonneg. intros x Hx. apply in_map_iff in Hx.
  destruct Hx as [r [<- Hr]]. apply Hm.
  rewrite Em in Hr. apply filter_In in Hr. destruct Hr as [Hr _].
  apply filter_In in Hr. tauto.
Qed.

(** The query of the shares fails, on a division by zero, exactly when
    there are churned customers and their rounded annual losses add up
    to 0; without churned customers it returns no row.  When no monthly
    charge is negative, every share it returns is between 0 and 100. *)
Theorem revenue_share_query (t : list (CustomerRecord Q)) :
  (sql_revenue_by_segment t = None
   <-> count_churned t <> 0%nat
       /\ Qsum (map cr_annual_revenue_lost (churn_revenue t)) == 0)
  /\ (count_churned t = 0%nat -> sql_revenue_by_segment t = Some [])
  /\ ((forall r, In r t -> 0 <= MonthlyCharges r) ->
      forall rows row share,
        sql_revenue_by_segment t = Some rows ->
        In (row, share) rows ->
        In row (churn_revenue t) /\ 0 <= share <= 100).
Proof.
  unfold sql_revenue_by_segment. cbv zeta.
  set (cte := churn_revenue t).
  set (total := Qsum (map cr_annual_revenue_lost cte)).
  split; [|split].
  - rewrite <- churn_revenue_nil_iff. fold cte. split.
    + intros E. destruct cte as [| row cte'] eqn:C.
      { simpl in E. discriminate. }
      split; [discriminate|].
      destruct (Qeq_bool total 0) eqn:Z; [now apply Qeq_bool_eq|].
      exfalso.
      destruct (sequence_map_Some
                  (fun row => option_map
                                (fun q => (row, sql_round (q * 100) 2))
                                (sql_div (cr_annual_revenue_lost row) total))
                  (row :: cte')) as [bs [E' _]]; [|congruence].
      intros a _. unfold sql_div. rewrite Z. simpl. eauto.
    + intros [Hne Z]. destruct cte as [| row cte']; [congruence|].
      simpl. unfold sql_div.
      now rewrite (proj2 (Qeq_bool_iff total 0) Z).
  - intros Hc. apply churn_revenue_nil_iff in Hc. fold cte in Hc.
    now rewrite Hc.
  - intros Hm rows row share E Hin.
    destruct (sequence_Some_In _ _ _ _ E Hin) as [row' [Hrow' F]].
    destruct (sql_div (cr_annual_revenue_lost row') total) as [q|] eqn:D;
      [|discriminate].
    simpl in F. injection F as -> <-.
    split; [exact Hrow'|].
    destruct (sql_div_Some _ _ _ D) as [Z ->].
    assert (A : 0 <= cr_annual_revenue_lost row)
      by now apply (churn_revenue_nonneg t).
    assert (Le : cr_annual_revenue_lost row <= total).
    { apply Qsum_ge_member; [|now apply in_map].
      intros y Hy. apply in_map_iff in Hy. destruct Hy as [r' [<- Hr']].
      now apply (churn_revenue_nonneg t). }
    assert (P : 0 < total).
    { destruct (Qlt_le_dec 0 total) as [L | L]; [exact L|].
      exfalso. assert (T0 : total == 0) by lra.
      apply Qeq_bool_iff in T0. congruence. }
    apply (sql_round_bounds _ 2 0 100 (Z.le_refl 0)).
    change (inject_Z 0) with 0. change (inject_Z 100) with 100.
    assert (L0 : 0 <= cr_annual_revenue_lost row / total)
      by (apply Qle_shift_div_l; [exact P | lra]).
    assert (L1 : cr_annual_revenue_lost row / total <= 1)
      by (apply Qle_shift_div_r; [exact P | lra]).
    lra.
Qed.

Lemma revenue_share_query_witness :
  exists rows row share,
    sql_revenue_by_segment sample_customers = Some rows
    /\ In (row, share) rows
    /\ 0 <= share <= 100.
Proof.
  do 3 eexists. split; [reflexivity|]. split; [left; reflexivity|].
  refine (proj2 (proj2 (proj2 (revenue_share_query sample_customers)) _
                       _ _ _ eq_refl (or_introl eq_refl))).
  intros r [<- | [<- | [<- | []]]]; discriminate.
Defined.

(** When every churned customer is on a plan without a monthly charge, the
    query of the shares fails. *)
Example revenue_share_query_fails :
  sql_revenue_by_segment [free_plan_customer] = None.
Proof. reflexivity. Qed.

(** ** The two rounding conventions *)

Lemma Qfloor_unique (x : Q) (n : Z) :
  inject_Z n <= x -> x < inject_Z n + 1 -> Qfloor x = n.
Proof.
  intros Lo Hi.
  pose proof (Qfloor_le x) as L. pose proof (Qlt_floor x) as H.
  rewrite inject_Z_succ in H.
  assert (A : inject_Z n < inject_Z (Qfloor x + 1))
    by (rewrite inject_Z_succ; lra).
  assert (B : inject_Z (Qfloor x) < inject_Z (n + 1))
    by (rewrite inject_Z_succ; lra).
  rewrite <- Zlt_Qlt in A, B. lia.
Qed.

(** Off a tie, to the even neighbour and away from zero are the same. *)
Lemma rint_round_half_away (x : Q) :
  ~ x - inject_Z (Qfloor x) == 1 # 2 -> rint x = round_half_away x.
Proof.
  intros NT.
  pose proof (Qfloor_le x) as L. pose proof (Qlt_floor x) as H.
  rewrite inject_Z_succ in H.
  set (f := Qfloor x) in *.
  unfold rint, round_half_away. fold f.
  destruct (Qcompare (x - inject_Z f) (1 # 2)) eqn:C.
  - apply Qeq_alt in C. contradiction.
  - apply Qlt_alt in C.
    destruct (Qle_bool 0 x).
    + symmetry. apply Qfloor_unique; lra.
    + assert (E : Qfloor (- x + (1 # 2)) = (- f)%Z)
        by (apply Qfloor_unique; rewrite inject_Z_opp; lra).
      rewrite E. lia.
  - apply Qgt_alt in C.
    destruct (Qle_bool 0 x).
    + symmetry. apply Qfloor_unique; rewrite inject_Z_succ; lra.
    + assert (E : Qfloor (- x + (1 # 2)) = (- (f + 1))%Z)
        by (apply Qfloor_unique; rewrite inject_Z_opp, inject_Z_succ; lra).
      rewrite E. lia.
Qed.

Lemma rint_compat (x y : Q) : x == y -> rint x = rint y.
Proof.
  intros H. unfold rint.
  assert (F : Qfloor x = Qfloor y) by now rewrite H.
  rewrite F.
  assert (C : Qcompare (x - inject_Z (Qfloor y)) (1 # 2)
              = Qcompare (y - inject_Z (Qfloor y)) (1 # 2))
    by now rewrite H.
  now rewrite C.
Qed.

(** The two variants give the same churn rate for the same group of
    customers unless its percentage, in hundredths, falls exactly halfway
    between two integers: only there can the pandas rounding (to the even
    hundredth) and the SQL rounding (away from zero) part. *)
Theorem backends_agree_off_ties (rows : list (CustomerRecord Q)) :
  rows <> [] ->
  let p := Qnat (count_churned rows) / Qnat (List.length rows) * 100 in
  ~ p * 100 - inject_Z (Qfloor (p * 100)) == 1 # 2 ->
  exists rate,
    churn_rate_of (count_churned rows) (List.length rows) = Some rate
    /\ sql_churn_rate_percent rows = Some rate.
Proof.
  intros Hne p NT.
  assert (Hn : (0 < List.length rows)%nat)
    by (destruct rows; [congruence | simpl; lia]).
  exists (np_round p 2).
  split; [exact (churn_rate_of_defined _ _ Hn)|].
  rewrite (sql_churn_rate_percent_defined _ Hn). f_equal.
  rewrite sql_sum_churn_count. fold (Qnat (count_churned rows)).
  assert (E : Qnat (count_churned rows) * 100 / Qnat (List.length rows) == p).
  { unfold p. pose proof (Qnat_pos _ Hn) as P. field.
    intros Z. rewrite Z in P. now apply Qlt_irrefl in P. }
  rewrite (sql_round_compat _ _ 2 E).
  unfold np_round, sql_round. f_equal. f_equal.
  symmetry. exact (rint_round_half_away _ NT).
Qed.

Lemma backends_agree_off_ties_witness :
  exists rate,
    churn_rate_of (count_churned sample_customers)
                  (List.length sample_customers) = Some rate
    /\ sql_churn_rate_percent sample_customers = Some rate.
Proof.
  apply (backends_agree_off_ties sample_customers).
  - discriminate.
  - intros H. discriminate H.
Defined.

(** ** The order of the price bands *)

Section OrderBy.

Variable A : Type.
Variable le : A -> A -> bool.
Hypothesis le_total : forall a b, le a b = true \/ le b a = true.




End OrderBy.












(** ** The two scripts *)

Ltac find_In :=
  repeat match goal with
    | |- _ \/ _ => first [left; reflexivity | right]
    end.

Ltac decide_In :=
  simpl;
  repeat match goal with
    | |- _ /\ _ => split
    | |- _ <-> _ => split
    | |- ~ _ => intro
    | |- _ -> _ => intro
    | H : _ \/ _ |- _ => destruct H
    | H : _ /\ _ |- _ => destruct H
    | H : False |- _ => destruct H
    | H : _ = _ |- _ => discriminate H
    | H : ?a <> ?a |- _ => destruct (H eq_refl)
    end;
  try reflexivity; try solve [find_In];
  try solve [exfalso; match goal with
                      | H : ~ _ |- _ => apply H; find_In
                      end].



(** The analysis run closes what it opened once it is connected, whether an
    analysis raises or not, and then reports success or failure, never
    both.  When connecting fails it stops at once, before the block that
    releases: an engine created before the failure is then not disposed.
    An analysis runs only if the ones before it did not raise. *)
Theorem run_complete_analysis_releases (w : analysis_world) :
  (analysis_connecting w = connected ->
   In Closed_connection (run_complete_analysis w)
   /\ In Disposed_engine (run_complete_analysis w)
   /\ (In Reported_success (run_complete_analysis w)
       <-> ~ In Reported_failure (run_complete_analysis w)))
  /\ (analysis_connecting w <> connected ->
      run_complete_analysis w
      = Step "connect" :: fst (fst (create_connection (analysis_connecting w)))
      /\ ~ In Disposed_engine (run_complete_analysis w))
  /\ (analysis_connecting w = connect_fails ->
      In Created_engine (run_complete_analysis w))
  /\ (In Reported_success (run_complete_analysis w)
      <-> analysis_connecting w = connected
          /\ clv_raises w = false /\ churn_drivers_raises w = false
          /\ revenue_impact_raises w = false /\ pricing_raises w = false)
  /\ (In (Step "analyze_revenue_impact") (run_complete_analysis w) ->
      clv_raises w = false /\ churn_drivers_raises w = false)
  /\ (In (Step "create_visualizations") (run_complete_analysis w) ->
      In Reported_success (run_complete_analysis w)).
Proof.
  destruct w as [[| |] c d r p]; destruct c, d, r, p; decide_In.
Qed.

Lemma run_complete_analysis_releases_witness :
  In Closed_connection
     (run_complete_analysis (mkAnalysisWorld connected false true false false))
  /\ In Created_engine
        (run_complete_analysis
           (mkAnalysisWorld connect_fails false false false false)).
Proof.
  split.
  - exact (proj1 (proj1 (run_complete_analysis_releases
                           (mkAnalysisWorld connected false true false false))
                        eq_refl)).
  - exact (proj1 (proj2 (proj2 (run_complete_analysis_releases
                           (mkAnalysisWorld connect_fails false false false
                                            false))))
                 eq_refl).
Defined.
